(** * Episode-title rules of guessit ([guessit/rules/properties/episode_title.py])

    A shallow embedding of the five rules registered in [EPISODE_TITLE]
    together with the part of the match collection they query, followed by
    the properties of the rules.

    The rules are translated from the Python source.  The match collection
    ([rebulk]'s [Matches]), the separator tables, the [cleanup] formatter and
    the base class [TitleBaseRule] live outside the file under study; they
    are either modelled from the interface description of the specification
    (and marked so) or taken as section variables. *)

From Stdlib Require Import Ascii String.
From stdpp Require Import base decidable option list sorting strings gmap.

Local Open Scope string_scope.
Local Open Scope nat_scope.
Local Open Scope list_scope.

(** ** Data model *)

(** A tagged span.  [name] is Python's [match.name] ([None] for a hole that
    was not named yet), [tags] the secondary tags, [value] the formatted
    content, [start]/[end_] the half-open character range. *)
Record Match := mkMatch {
  start : nat;
  end_ : nat;
  name : option string;
  tags : list string;
  value : string
}.

#[global] Instance Match_eq_dec : EqDecision Match.
Proof. solve_decision. Defined.

(** The shared collection handed from rule to rule: the matches in
    insertion order, the path markers (shallowest first) and the string the
    offsets point into. *)
Record Matches := mkMatches {
  items : list Match;
  markers : list Match;
  input_string : string
}.

(** Python exceptions the embedded code could raise. *)
Inductive exn := ValueError | IndexError.

Inductive result (A : Type) :=
| Ok (a : A)
| Raise (e : exn).
Arguments Ok {A} a.
Arguments Raise {A} e.

Definition bind {A B} (r : result A) (k : A → result B) : result B :=
  match r with
  | Ok a => k a
  | Raise e => Raise e
  end.

Notation "'do' x <- r ; k" := (bind r (λ x, k))
  (at level 10, x name, r at level 100, k at level 200).

(** [match.name = new_name], every other field preserved. *)
Definition rename (new_name : string) (m : Match) : Match :=
  {| start := start m; end_ := end_ m; name := Some new_name;
     tags := tags m; value := value m |}.

Definition with_items (ms : Matches) (l : list Match) : Matches :=
  {| items := l; markers := markers ms; input_string := input_string ms |}.

(** ** The span query surface *)

Module Query.

(** Document order: by start, then by end (Python compares the spans). *)
Definition span_le (a b : Match) : Prop :=
  start a < start b ∨ (start a = start b ∧ end_ a ≤ end_ b).

#[global] Instance span_le_dec : RelDecision span_le.
Proof. intros a b. unfold span_le. apply _. Defined.

#[global] Instance span_le_total : Total span_le.
Proof. intros a b. unfold span_le. lia. Qed.

#[global] Instance span_le_trans : Transitive span_le.
Proof. intros a b c. unfold span_le. lia. Qed.

(** Python's [sorted(self)]: a stable sort by span.  A match is put in front
    of the first sorted match that does not precede it, so that matches with
    the same span keep the order of the collection. *)
Fixpoint insert_sorted (m : Match) (l : list Match) : list Match :=
  match l with
  | [] => [m]
  | x :: l' =>
      if decide (span_le m x) then m :: x :: l' else x :: insert_sorted m l'
  end.

Definition sorted (l : list Match) : list Match := foldr insert_sorted [] l.

Definition has_name (nm : string) (m : Match) : Prop := name m = Some nm.

#[global] Instance has_name_dec nm m : Decision (has_name nm m).
Proof. unfold has_name. apply _. Defined.

(** Modelled from the spec: [Matches.named] of rebulk is not part of the
    file under study.  "named(tag) -> ordered sequence of Match: all matches
    with a given tag, document order". *)
Definition named (nm : string) (l : list Match) : list Match :=
  filter (has_name nm) (sorted l).

(** Matches whose range stops exactly at [pos], in collection order. *)
Definition ending (pos : nat) (l : list Match) : list Match :=
  filter (λ m, end_ m = pos) l.

(** Walk left from [current] to the first offset where some match ends. *)
Fixpoint nearest_ending (l : list Match) (current : nat) : list Match :=
  match current with
  | 0 => ending 0 l
  | S c =>
      match ending (S c) l with
      | [] => nearest_ending l c
      | found => found
      end
  end.

(** Modelled from the spec: [Matches.previous] of rebulk is not part of the
    file under study.  "previous(anchor, predicate, index=0) -> Match |
    absent: nearest preceding match (skipping separators) satisfying
    predicate".  The callers pass neither a separator table nor a path
    marker, so whatever text lies between the anchor and the nearest match
    end is skipped, and the predicate is applied to the matches found
    there.  Without [index] the whole (possibly empty) list is returned. *)
Definition previous (l : list Match) (anchor : Match)
    (P : Match → Prop) `{!∀ m, Decision (P m)} : list Match :=
  filter P (nearest_ending l (start anchor)).

Definition inside (lo : nat) (hi : option nat) (m : Match) : Prop :=
  lo ≤ start m ∧ match hi with Some h => end_ m ≤ h | None => True end.

#[global] Instance inside_dec lo hi m : Decision (inside lo hi m).
Proof. unfold inside. destruct hi; apply _. Defined.

(** Modelled from the spec: [Matches.range] of rebulk is not part of the
    file under study.  "range(start, end, predicate, index) -> Match | list
    | absent: matches fully inside [start,end) satisfying predicate", in
    document order; [hi = None] is Python's default [end=None]. *)
Definition range (l : list Match) (lo : nat) (hi : option nat)
    (P : Match → Prop) `{!∀ m, Decision (P m)} : list Match :=
  filter P (filter (inside lo hi) (sorted l)).

(** Matches covering offset [i], in collection order. *)
Definition at_index (i : nat) (l : list Match) : list Match :=
  filter (λ m, start m ≤ i < end_ m) l.

Definition is_sep (seps : list ascii) (s : string) (i : nat) : bool :=
  match String.get i s with
  | Some c => bool_decide (c ∈ seps)
  | None => false
  end.

(** Backward scan of [chain_before]: offsets [pos-1], [pos-2], ... are
    visited; an offset covered by predicate-satisfying matches adds them to
    the chain, an uncovered separator is stepped over, anything else stops
    the scan. *)
Fixpoint chain_scan (l : list Match) (s : string) (seps : list ascii)
    (P : Match → Prop) `{!∀ m, Decision (P m)}
    (pos : nat) (chain : list Match) : list Match :=
  match pos with
  | 0 => chain
  | S i =>
      match filter P (at_index i l) with
      | [] => if is_sep seps s i then chain_scan l s seps P i chain else chain
      | found =>
          chain_scan l s seps P i (chain ++ filter (λ m, m ∉ chain) found)
      end
  end.

(** Modelled from the spec: [Matches.chain_before] of rebulk is not part of
    the file under study.  "chain_before(position, separators, predicate,
    index) -> Match | absent: nearest match ending at position that is part
    of a contiguous run of predicate-satisfying matches"; the run may be
    interrupted by separators only. *)
Definition chain_before (ms : Matches) (position : nat) (seps : list ascii)
    (P : Match → Prop) `{!∀ m, Decision (P m)} : list Match :=
  chain_scan (items ms) (input_string ms) seps P position [].

Definition covered (l : list Match) (i : nat) : bool :=
  bool_decide (at_index i l ≠ []).

(** Maximal runs of uncovered offsets among [pos, pos+n), as half-open
    pairs; [open] is the start of the run being read. *)
Fixpoint gaps (l : list Match) (pos n : nat) (open : option nat)
    : list (nat * nat) :=
  match n with
  | 0 => match open with Some s => [(s, pos)] | None => [] end
  | S n' =>
      if covered l pos then
        match open with
        | Some s => (s, pos) :: gaps l (S pos) n' None
        | None => gaps l (S pos) n' None
        end
      else
        gaps l (S pos) n' (Some (default pos open))
  end.

(** Drop separators from the left end of [lo, lo+n). *)
Fixpoint trim_left (seps : list ascii) (s : string) (lo n : nat) : nat * nat :=
  match n with
  | 0 => (lo, 0)
  | S n' => if is_sep seps s lo then trim_left seps s (S lo) n' else (lo, n)
  end.

(** Drop separators from the right end of [lo, lo+n). *)
Fixpoint trim_right (seps : list ascii) (s : string) (lo n : nat) : nat :=
  match n with
  | 0 => 0
  | S n' => if is_sep seps s (lo + n') then trim_right seps s lo n' else n
  end.

Definition trim (seps : list ascii) (s : string) (g : nat * nat)
    : option (nat * nat) :=
  let '(lo, n) := trim_left seps s g.1 (g.2 - g.1) in
  let n' := trim_right seps s lo n in
  if decide (n' = 0) then None else Some (lo, lo + n').

(** The unnamed match built for a gap. *)
Definition hole_of (formatter : string → string) (s : string)
    (g : nat * nat) : Match :=
  {| start := g.1; end_ := g.2; name := None; tags := [];
     value := formatter (substring g.1 (g.2 - g.1) s) |}.

(** Modelled from the spec: [Matches.holes] of rebulk is not part of the
    file under study.  "holes(start, end, formatter, separators, predicate,
    index) -> Match | list: unmatched gaps in [start,end), post-processed by
    formatter, rejected if empty after formatting or separator-trimming"; a
    hole is "a maximal sub-range within a path segment not covered by any
    existing match". *)
Definition holes (ms : Matches) (lo hi : nat) (formatter : string → string)
    (seps : list ascii) (P : Match → Prop) `{!∀ m, Decision (P m)}
    : list Match :=
  filter P
    (hole_of formatter (input_string ms) <$>
       omap (trim seps (input_string ms)) (gaps (items ms) lo (hi - lo) None)).

(** Modelled from the spec: [Matches.remove] of rebulk is not part of the
    file under study.  "remove(match), append(match): collection mutation",
    taken as Python's [list.remove]: drop the first equal element,
    [ValueError] when there is none.  Two matches are equal when all their
    fields are. *)
Fixpoint remove (m : Match) (l : list Match) : result (list Match) :=
  match l with
  | [] => Raise ValueError
  | x :: l' =>
      if decide (x = m) then Ok l'
      else do r <- remove m l'; Ok (x :: r)
  end.

Definition append (m : Match) (l : list Match) : list Match := l ++ [m].

(** [seq[-k]] for [k >= 1]: [IndexError] when the list is too short. *)
Definition from_end {A} (l : list A) (k : nat) : result A :=
  match reverse l !! (k - 1) with
  | Some x => Ok x
  | None => Raise IndexError
  end.

End Query.

Import Query.

(** Python truthiness of a list and of an optional match (a match that is
    there counts as true). *)
Definition nonempty {A} (l : list A) : bool :=
  match l with [] => false | _ => true end.

Definition present {A} (o : option A) : bool :=
  match o with Some _ => true | None => false end.

(** Modelled from the spec: [Match.names] of rebulk is not part of the
    file under study.  The data model has no child spans ("tag: one of a
    fixed vocabulary"), so the names of a match are its own name. *)
Definition names (m : Match) : list (option string) := [name m].

(** The literal list shared by [hole_filter] and
    [AlternativeTitleReplace.when]. *)
Definition anchor_names : list string :=
  ["episodeNumber"; "episodeDetails"; "episodeCount"; "season";
   "seasonCount"; "date"; "title"].

(** [lambda previous: any(name in previous.names for name in [...])] *)
Definition is_anchor (m : Match) : Prop :=
  Exists (λ nm, Some nm ∈ names m) anchor_names.

#[global] Instance is_anchor_dec m : Decision (is_anchor m).
Proof. unfold is_anchor. apply _. Defined.

(** Modelled from the spec: the rule engine of rebulk is not part of the
    file under study.  "Every rule's applicability check [...] is expressed
    as an early "not applicable" outcome": [then] runs only on a truthy
    response of [when], and the collection is handed on as it is
    otherwise. *)
Definition run_rule {R} (when : Matches → option R)
    (then_ : Matches → R → result Matches) (ms : Matches) : result Matches :=
  match when ms with
  | None => Ok ms
  | Some r => then_ ms r
  end.

(** Remove-then-append of one match under a new name. *)
Definition retag (new_name : string) (m : Match) (l : list Match)
    : result (list Match) :=
  do l' <- remove m l; Ok (append (rename new_name m) l').

(** ** The rules *)

Module TitleToEpisodeTitle.

(** [title_groups[title.value].append(title)] on a [defaultdict(list)]. *)
Definition group_step (groups : gmap string (list Match)) (title : Match)
    : gmap string (list Match) :=
  <[value title := default [] (groups !! value title) ++ [title]]> groups.

Definition follows_episode_number (ms : Matches) (title : Match) : bool :=
  nonempty (previous (items ms) title (has_name "episodeNumber")).

(** One turn of the second loop over [episode_titles, main_titles]. *)
Definition split_step (ms : Matches) (acc : list Match * list Match)
    (title : Match) : list Match * list Match :=
  if follows_episode_number ms title
  then (acc.1 ++ [title], acc.2)
  else (acc.1, acc.2 ++ [title]).

Definition when (ms : Matches) : option (list Match) :=
  let titles := named "title" (items ms) in
  if decide (length titles < 2) then None
  else
    let title_groups := foldl group_step ∅ titles in
    let '(episode_titles, main_titles) :=
      foldl (split_step ms) ([], []) titles in
    if nonempty episode_titles then Some episode_titles else None.

Fixpoint then_items (l : list Match) (when_response : list Match)
    : result (list Match) :=
  match when_response with
  | [] => Ok l
  | episode_title :: rest =>
      do l' <- retag "episodeTitle" episode_title l; then_items l' rest
  end.

Definition then_ (ms : Matches) (when_response : list Match)
    : result Matches :=
  do l <- then_items (items ms) when_response; Ok (with_items ms l).

Definition run : Matches → result Matches := run_rule when then_.

End TitleToEpisodeTitle.

Module EpisodeTitleFromPosition.

Definition hole_filter (hole : Match) (ms : Matches) : bool :=
  let episode := head (previous (items ms) hole is_anchor) in
  let crc32 := named "crc32" (items ms) in
  present episode || nonempty crc32.

Definition filepart_filter (filepart : Match) (ms : Matches) : bool :=
  if nonempty (range (items ms) (start filepart) (Some (end_ filepart))
                 (has_name "title"))
  then true else false.

Section Hooks.
(** The same-named methods of the base class [TitleBaseRule], which is
    outside the file under study. *)
Variable super_is_ignored : Match → bool.
Variable super_should_keep :
  Match → list Match → Matches → Match → Match → bool * bool.

Definition is_ignored (m : Match) : bool :=
  if bool_decide (name m = Some "episodeDetails") then true
  else super_is_ignored m.

Definition should_keep (m : Match) (to_keep : list Match) (ms : Matches)
    (filepart hole : Match) : bool * bool :=
  if bool_decide (name m = Some "episodeDetails")
     && negb (nonempty (previous (items ms) m (has_name "season")))
  then (true, false)
  else super_should_keep m to_keep ms filepart hole.
End Hooks.

(** The four overridable methods the base algorithm calls back. *)
Record Hooks := {
  hook_hole_filter : Match → Matches → bool;
  hook_filepart_filter : Match → Matches → bool;
  hook_is_ignored : Match → bool;
  hook_should_keep :
    Match → list Match → Matches → Match → Match → bool * bool
}.

Section Rule.
Variable super_is_ignored : Match → bool.
Variable super_should_keep :
  Match → list Match → Matches → Match → Match → bool * bool.
(** [TitleBaseRule.when] and the consequence of the base class, given
    the target name, the tags and the hooks of the subclass. *)
Variable R : Type.
Variable super_when : string → list string → Hooks → Matches → option R.
Variable super_then : Matches → R → result Matches.

Definition hooks : Hooks :=
  {| hook_hole_filter := hole_filter;
     hook_filepart_filter := filepart_filter;
     hook_is_ignored := is_ignored super_is_ignored;
     hook_should_keep := should_keep super_should_keep |}.

Definition when (ms : Matches) : option R :=
  if nonempty (named "episodeTitle" (items ms)) then None
  else super_when "episodeTitle" ["title"] hooks ms.

Definition run : Matches → result Matches := run_rule when super_then.
End Rule.

End EpisodeTitleFromPosition.

Module AlternativeTitleReplace.

Section Rule.
(** [guessit.rules.common.seps], outside the file under study. *)
Variable seps : list ascii.

Definition when (ms : Matches) : option Match :=
  if nonempty (named "episodeTitle" (items ms)) then None
  else
    match head (range (items ms) 0 None (has_name "alternativeTitle")) with
    | Some alternative_title =>
        match head (chain_before ms (start alternative_title) seps
                      (λ m, "title" ∈ tags m)) with
        | Some main_title =>
            let episode := head (previous (items ms) main_title is_anchor) in
            let crc32 := named "crc32" (items ms) in
            if present episode || nonempty crc32
            then Some alternative_title else None
        | None => None
        end
    | None => None
    end.

Definition then_ (ms : Matches) (when_response : Match) : result Matches :=
  do l <- retag "episodeTitle" when_response (items ms);
  Ok (with_items ms l).

Definition run : Matches → result Matches := run_rule when then_.
End Rule.

End AlternativeTitleReplace.

(** Modelled from the spec: the consequence [AppendMatch('title')] of rebulk
    is not part of the file under study.  "if found, append it as a new
    `title` span". *)
Definition AppendMatch (match_name : string) (ms : Matches) (m : Match)
    : result Matches :=
  Ok (with_items ms (append (rename match_name m) (items ms))).

(** [lambda match: match.value] *)
Definition has_value (m : Match) : Prop := value m ≠ EmptyString.

#[global] Instance has_value_dec m : Decision (has_value m).
Proof. unfold has_value. apply _. Defined.

Module Filepart3EpisodeTitle.

Section Rule.
(** [guessit.rules.common.title_seps] and the formatter [cleanup],
    outside the file under study. *)
Variable title_seps : list ascii.
Variable cleanup : string → string.

Definition when (ms : Matches) : result (option Match) :=
  let fileparts := named "path" (markers ms) in
  if decide (length fileparts < 3) then Ok None
  else
    do filename <- from_end fileparts 1;
    do directory <- from_end fileparts 2;
    do subdirectory <- from_end fileparts 3;
    let episode_number :=
      head (range (items ms) (start filename) (Some (end_ filename))
              (has_name "episodeNumber")) in
    if present episode_number then
      let season :=
        head (range (items ms) (start directory) (Some (end_ directory))
                (has_name "season")) in
      if present season then
        Ok (head (holes ms (start subdirectory) (end_ subdirectory)
                    cleanup title_seps has_value))
      else Ok None
    else Ok None.

Definition run (ms : Matches) : result Matches :=
  do r <- when ms; run_rule (λ _, r) (AppendMatch "title") ms.
End Rule.

End Filepart3EpisodeTitle.

Module Filepart2EpisodeTitle.

Section Rule.
Variable title_seps : list ascii.
Variable cleanup : string → string.

Definition when (ms : Matches) : result (option Match) :=
  let fileparts := named "path" (markers ms) in
  if decide (length fileparts < 2) then Ok None
  else
    do filename <- from_end fileparts 1;
    do directory <- from_end fileparts 2;
    let episode_number :=
      head (range (items ms) (start filename) (Some (end_ filename))
              (has_name "episodeNumber")) in
    if present episode_number then
      let season :=
        head (range (items ms) (start directory) (Some (end_ directory))
                (has_name "season")) in
      if present season then
        Ok (head (holes ms (start directory) (end_ directory)
                    cleanup title_seps has_value))
      else Ok None
    else Ok None.

Definition run (ms : Matches) : result Matches :=
  do r <- when ms; run_rule (λ _, r) (AppendMatch "title") ms.
End Rule.

End Filepart2EpisodeTitle.

(** ** The ensemble *)

(** The five rule classes of the file. *)
Inductive RuleClass :=
| TitleToEpisodeTitle_rule
| EpisodeTitleFromPosition_rule
| AlternativeTitleReplace_rule
| Filepart3EpisodeTitle_rule
| Filepart2EpisodeTitle_rule.

#[global] Instance RuleClass_eq_dec : EqDecision RuleClass.
Proof. solve_decision. Defined.

(** The [dependency] attribute of each class, as far as it names a rule of
    the file: [TitleToEpisodeTitle] depends on [TitleFromPosition], a rule of
    another module that has run before the collection arrives, and the two
    path rules declare no dependency. *)
Definition dependency (r : RuleClass) : option RuleClass :=
  match r with
  | TitleToEpisodeTitle_rule => None
  | EpisodeTitleFromPosition_rule => Some TitleToEpisodeTitle_rule
  | AlternativeTitleReplace_rule => Some EpisodeTitleFromPosition_rule
  | Filepart3EpisodeTitle_rule => None
  | Filepart2EpisodeTitle_rule => None
  end.

(** [EPISODE_TITLE = Rebulk().rules(...)]: the rules as they are
    registered. *)
Definition EPISODE_TITLE : list RuleClass :=
  [EpisodeTitleFromPosition_rule; AlternativeTitleReplace_rule;
   TitleToEpisodeTitle_rule; Filepart3EpisodeTitle_rule;
   Filepart2EpisodeTitle_rule].

(** Every rule of [order] comes after its dependency, [ran] being the rules
    run so far. *)
Fixpoint dependencies_met (ran order : list RuleClass) : bool :=
  match order with
  | [] => true
  | r :: rest =>
      match dependency r with
      | Some d => bool_decide (d ∈ ran)
      | None => true
      end && dependencies_met (r :: ran) rest
  end.

(** Modelled from the spec: the scheduler of rebulk is not part of the file
    under study.  "Rules are applied one at a time by an external scheduler
    honoring declared dependency edges"; the order of the two path rules
    "versus the chain is determined by the external scheduler and is not
    guaranteed by this module".  An execution order is any arrangement of the
    registered rules that runs each rule after its dependency. *)
Definition execution_order (order : list RuleClass) : Prop :=
  order ≡ₚ EPISODE_TITLE ∧ dependencies_met [] order = true.

Section Ensemble.
(** What [EpisodeTitleFromPosition] inherits from [TitleBaseRule]. *)
Variable super_is_ignored : Match → bool.
Variable super_should_keep :
  Match → list Match → Matches → Match → Match → bool * bool.
Variable R : Type.
Variable super_when :
  string → list string → EpisodeTitleFromPosition.Hooks → Matches → option R.
Variable super_then : Matches → R → result Matches.
Variable seps title_seps : list ascii.
Variable cleanup : string → string.

(** The rules tied by [dependency], in the order the dependencies impose. *)
Definition dependency_chain (ms : Matches) : result Matches :=
  do ms1 <- TitleToEpisodeTitle.run ms;
  do ms2 <- EpisodeTitleFromPosition.run super_is_ignored super_should_keep R
              super_when super_then ms1;
  AlternativeTitleReplace.run seps ms2.

Definition run_class (r : RuleClass) : Matches → result Matches :=
  match r with
  | TitleToEpisodeTitle_rule => TitleToEpisodeTitle.run
  | EpisodeTitleFromPosition_rule =>
      EpisodeTitleFromPosition.run super_is_ignored super_should_keep R
        super_when super_then
  | AlternativeTitleReplace_rule => AlternativeTitleReplace.run seps
  | Filepart3EpisodeTitle_rule => Filepart3EpisodeTitle.run title_seps cleanup
  | Filepart2EpisodeTitle_rule => Filepart2EpisodeTitle.run title_seps cleanup
  end.

(** The rules of [order] one after the other, each on the collection the
    rule before it returned. *)
Fixpoint run_rules (order : list RuleClass) (ms : Matches) : result Matches :=
  match order with
  | [] => Ok ms
  | r :: rest => do ms' <- run_class r ms; run_rules rest ms'
  end.

End Ensemble.

(** ** Vocabulary of the properties *)

(** [TitleToEpisodeTitle.when] with the computation of [title_groups] taken
    out; everything else is as in the source. *)
Definition when_ungrouped (ms : Matches) : option (list Match) :=
  let titles := named "title" (items ms) in
  if decide (length titles < 2) then None
  else
    let '(episode_titles, main_titles) :=
      foldl (TitleToEpisodeTitle.split_step ms) ([], []) titles in
    if nonempty episode_titles then Some episode_titles else None.

(** The same span under another value. *)
Definition revalue (g : Match → string) (m : Match) : Match :=
  {| start := start m; end_ := end_ m; name := name m; tags := tags m;
     value := g m |}.

(** [p] is one of the tagged spans met first when walking left from the
    start of [t]: no span of the collection ends between [p] and [t]. *)
Definition immediately_precedes (l : list Match) (p t : Match) : Prop :=
  p ∈ l ∧ end_ p ≤ start t ∧
  ∀ q, q ∈ l → end_ q ≤ start t → end_ q ≤ end_ p.

(** A title span that directly follows an episode number. *)
Definition promoted (ms : Matches) (m : Match) : Prop :=
  name m = Some "title" ∧
  ∃ p, immediately_precedes (items ms) p m ∧ name p = Some "episodeNumber".

(** The same as the specification words it: the nearest span to the left is
    an episode number, and nothing but separators lies between the two. *)
Definition promoted_through_separators (seps : list ascii) (ms : Matches)
    (m : Match) : Prop :=
  name m = Some "title" ∧
  ∃ p, immediately_precedes (items ms) p m ∧ name p = Some "episodeNumber" ∧
       ∀ j, end_ p ≤ j < start m → is_sep seps (input_string ms) j = true.

(** [a] comes first in document order among the spans satisfying [P]. *)
Definition first_in_document_order (P : Match → Prop) (l : list Match)
    (a : Match) : Prop :=
  a ∈ l ∧ P a ∧ ∀ b, b ∈ l → P b → span_le a b.

(** The span [AlternativeTitleReplace] looks at. *)
Definition first_alternative (ms : Matches) : option Match :=
  head (range (items ms) 0 None (has_name "alternativeTitle")).

(** [mt] is the main title chained to [a]: it is the first span carrying
    the tag [title] at the nearest offset [i] left of [a] covered by such a
    span, and every offset between [i] and [a] is a separator covered by no
    span carrying the tag. *)
Definition chained_main_title (seps : list ascii) (ms : Matches)
    (a mt : Match) : Prop :=
  ∃ i, i < start a ∧
    head (filter (λ m, "title" ∈ tags m) (at_index i (items ms))) = Some mt ∧
    ∀ j, i < j < start a →
      is_sep seps (input_string ms) j = true ∧
      ∀ m, m ∈ items ms → start m ≤ j < end_ m → "title" ∉ tags m.

(** [mt] directly follows a span with an anchoring name, or the collection
    holds a [crc32] span. *)
Definition episode_context (ms : Matches) (mt : Match) : Prop :=
  (∃ p, immediately_precedes (items ms) p mt ∧
        ∃ nm, nm ∈ anchor_names ∧ name p = Some nm) ∨
  (∃ c, c ∈ items ms ∧ name c = Some "crc32").

Definition has_episode_title (ms : Matches) : Prop :=
  ∃ e, e ∈ items ms ∧ name e = Some "episodeTitle".

(** Both spans lie within one path marker. *)
Definition same_segment (ms : Matches) (p h : Match) : Prop :=
  ∃ f, f ∈ named "path" (markers ms) ∧
    inside (start f) (Some (end_ f)) p ∧ inside (start f) (Some (end_ f)) h.

(** The hole filter as the specification words it: the nearest match to the
    left of the hole, looked for within the path segment of the hole, has an
    anchoring name, or a [crc32] span exists. *)
Definition accepted_within_segment (ms : Matches) (hole : Match) : Prop :=
  (∃ p, p ∈ items ms ∧ same_segment ms p hole ∧ end_ p ≤ start hole ∧
        (∀ q, q ∈ items ms → same_segment ms q hole →
              end_ q ≤ start hole → end_ q ≤ end_ p) ∧
        ∃ nm, nm ∈ anchor_names ∧ name p = Some nm) ∨
  (∃ c, c ∈ items ms ∧ name c = Some "crc32").

(** The range of the path marker [seg] contains a span named [nm]. *)
Definition contains_named (ms : Matches) (seg : Match) (nm : string) : Prop :=
  ∃ m, m ∈ items ms ∧ name m = Some nm ∧
       start seg ≤ start m ∧ end_ m ≤ end_ seg.

(** The first hole of the range of [seg] with a non-empty value. *)
Definition first_hole (title_seps : list ascii) (cleanup : string → string)
    (ms : Matches) (seg : Match) : option Match :=
  head (holes ms (start seg) (end_ seg) cleanup title_seps has_value).

(** The collection with the hole [h] appended under the name [title]. *)
Definition with_title (ms : Matches) (h : Match) : Matches :=
  with_items ms (items ms ++ [rename "title" h]).

(** When [Filepart3EpisodeTitle] appends [h]. *)
Definition filepart3_applies (title_seps : list ascii)
    (cleanup : string → string) (ms : Matches) (h : Match) : Prop :=
  ∃ pre subdirectory directory filename,
    named "path" (markers ms) = pre ++ [subdirectory; directory; filename] ∧
    contains_named ms filename "episodeNumber" ∧
    contains_named ms directory "season" ∧
    first_hole title_seps cleanup ms subdirectory = Some h.

(** When [Filepart2EpisodeTitle] appends [h]. *)
Definition filepart2_applies (title_seps : list ascii)
    (cleanup : string → string) (ms : Matches) (h : Match) : Prop :=
  ∃ pre directory filename,
    named "path" (markers ms) = pre ++ [directory; filename] ∧
    contains_named ms filename "episodeNumber" ∧
    contains_named ms directory "season" ∧
    first_hole title_seps cleanup ms directory = Some h.

(** [h] is an unnamed span inside the range of [seg] that no match touches
    and whose formatted text is its non-empty value. *)
Definition hole_within (cleanup : string → string) (ms : Matches)
    (seg h : Match) : Prop :=
  start seg ≤ start h ∧ start h < end_ h ∧ end_ h ≤ end_ seg ∧
  (∀ m i, m ∈ items ms → start h ≤ i < end_ h → ¬ (start m ≤ i < end_ m)) ∧
  name h = None ∧
  value h = cleanup (substring (start h) (end_ h - start h) (input_string ms)) ∧
  value h ≠ EmptyString.

(** [s, e) is a maximal run of offsets of [lo, hi) that no span of [l]
    covers. *)
Definition is_gap (l : list Match) (lo hi s e : nat) : Prop :=
  lo ≤ s ∧ s < e ∧ e ≤ hi ∧
  (∀ i, s ≤ i < e → ∀ m, m ∈ l → ¬ (start m ≤ i < end_ m)) ∧
  (s = lo ∨ ∃ m, m ∈ l ∧ start m ≤ s - 1 < end_ m) ∧
  (e = hi ∨ ∃ m, m ∈ l ∧ start m ≤ e < end_ m).

(** [s', e') is what is left of [s, e) once the separators at both ends are
    taken away, and something is left. *)
Definition is_trimmed (seps : list ascii) (str : string) (s e s' e' : nat)
    : Prop :=
  s ≤ s' ∧ s' < e' ∧ e' ≤ e ∧
  (∀ j, s ≤ j < s' → is_sep seps str j = true) ∧
  (∀ j, e' ≤ j < e → is_sep seps str j = true) ∧
  is_sep seps str s' = false ∧ is_sep seps str (e' - 1) = false.

(** A non-empty hole of the range of [seg] ("non-empty after formatting and
    separator-trimming"): an unnamed span that is a maximal unmatched run of
    the range with the separators at its ends trimmed, whose value is the
    formatted text it covers, and is not empty. *)
Definition is_hole (title_seps : list ascii) (cleanup : string → string)
    (ms : Matches) (seg h : Match) : Prop :=
  (∃ s e, is_gap (items ms) (start seg) (end_ seg) s e ∧
          is_trimmed title_seps (input_string ms) s e (start h) (end_ h)) ∧
  name h = None ∧ tags h = [] ∧
  value h = cleanup (substring (start h) (end_ h - start h) (input_string ms)) ∧
  value h ≠ EmptyString.

(** The first such hole: no other starts before it. *)
Definition is_first_hole (title_seps : list ascii) (cleanup : string → string)
    (ms : Matches) (seg h : Match) : Prop :=
  is_hole title_seps cleanup ms seg h ∧
  ∀ h', is_hole title_seps cleanup ms seg h' → start h ≤ start h'.

(** The conditions of [Filepart3EpisodeTitle] as the specification words
    them, with [h] the hole to append. *)
Definition filepart3_fires (title_seps : list ascii)
    (cleanup : string → string) (ms : Matches) (h : Match) : Prop :=
  ∃ pre subdirectory directory filename,
    named "path" (markers ms) = pre ++ [subdirectory; directory; filename] ∧
    contains_named ms filename "episodeNumber" ∧
    contains_named ms directory "season" ∧
    is_first_hole title_seps cleanup ms subdirectory h.

(** The conditions of [Filepart2EpisodeTitle], likewise. *)
Definition filepart2_fires (title_seps : list ascii)
    (cleanup : string → string) (ms : Matches) (h : Match) : Prop :=
  ∃ pre directory filename,
    named "path" (markers ms) = pre ++ [directory; filename] ∧
    contains_named ms filename "episodeNumber" ∧
    contains_named ms directory "season" ∧
    is_first_hole title_seps cleanup ms directory h.

(** How many spans carry the name [nm]. *)
Definition count_named (nm : string) (l : list Match) : nat :=
  length (filter (has_name nm) l).




(** Running the rule again on its own result changes nothing. *)
Definition idempotent (rule : Matches → result Matches) : Prop :=
  ∀ ms ms', rule ms = Ok ms' → rule ms' = Ok ms'.


(** The span [h] covers no offset of the range of [seg]. *)
Definition untouched (seg h : Match) : Prop :=
  ∀ i, start seg ≤ i < end_ seg → ¬ (start h ≤ i < end_ h).

(** The segments a path rule reads its hole from do not overlap: the last
    three path markers, when there are three, have the third-to-last and the
    second-to-last apart. *)
Definition scanned_segments_apart (ms : Matches) : Prop :=
  ∀ pre subdirectory directory filename,
    named "path" (markers ms) = pre ++ [subdirectory; directory; filename] →
    end_ subdirectory ≤ start directory ∨ end_ directory ≤ start subdirectory.

(** ** Sample collections *)

Module Sample.

(** Separator tables and a formatter of the kind the rules are run with:
    a general table, the shorter table used around titles, and a formatter
    that turns separators into blanks and strips the blanks at both ends. *)
Definition seps : list ascii :=
  list_ascii_of_string " [](){}+*|=-_~#/\.,;:".

Definition title_seps : list ascii := list_ascii_of_string "-+/\|".

Fixpoint drop_blanks (l : list ascii) : list ascii :=
  match l with
  | c :: l' => if decide (c = " "%char) then drop_blanks l' else l
  | [] => []
  end.

Definition cleanup (s : string) : string :=
  let blanked :=
    (λ c, if decide (c ∈ seps) then " "%char else c) <$> list_ascii_of_string s in
  string_of_list_ascii
    (reverse (drop_blanks (reverse (drop_blanks blanked)))).

Definition span (s e : nat) (nm v : string) : Match :=
  {| start := s; end_ := e; name := Some nm; tags := []; value := v |}.

Definition path (s e : nat) : Match :=
  {| start := s; end_ := e; name := Some "path"; tags := [];
     value := EmptyString |}.

(** "A 05 B": a title, an episode number, a second title. *)
Definition promotion : Matches :=
  {| items := [span 0 1 "title" "A"; span 2 4 "episodeNumber" "5";
               span 5 6 "title" "B"];
     markers := [path 0 6];
     input_string := "A 05 B" |}.

(** "05 B": one title after an episode number. *)
Definition single_title : Matches :=
  {| items := [span 0 2 "episodeNumber" "5"; span 3 4 "title" "B"];
     markers := [path 0 4];
     input_string := "05 B" |}.

(** "A 01 B 02 C": two titles, each after an episode number. *)
Definition two_followers : Matches :=
  {| items := [span 0 1 "title" "A"; span 2 4 "episodeNumber" "1";
               span 5 6 "title" "B"; span 7 9 "episodeNumber" "2";
               span 10 11 "title" "C"];
     markers := [path 0 11];
     input_string := "A 01 B 02 C" |}.

(** "S01 Show Alt": a season, the main title, an alternative title. *)
Definition alternative : Matches :=
  {| items := [span 0 3 "season" "1";
               {| start := 4; end_ := 8; name := Some "title";
                  tags := ["title"]; value := "Show" |};
               span 9 12 "alternativeTitle" "Alt"];
     markers := [path 0 12];
     input_string := "S01 Show Alt" |}.

(** "Show Alt": the same without the season. *)
Definition alternative_unanchored : Matches :=
  {| items := [{| start := 0; end_ := 4; name := Some "title";
                  tags := ["title"]; value := "Show" |};
               span 5 8 "alternativeTitle" "Alt"];
     markers := [path 0 8];
     input_string := "Show Alt" |}.

(** "Lost 2004 US/S01/E02": three path segments, a year inside the first. *)
Definition three_levels : Matches :=
  {| items := [span 5 9 "year" "2004"; span 13 16 "season" "1";
               span 17 20 "episodeNumber" "2"];
     markers := [path 0 12; path 13 16; path 17 20];
     input_string := "Lost 2004 US/S01/E02" |}.

(** "--/S01/E02": three path segments, the first one made of title
    separators. *)
Definition separators_only : Matches :=
  {| items := [span 3 6 "season" "1"; span 7 10 "episodeNumber" "2"];
     markers := [path 0 2; path 3 6; path 7 10];
     input_string := "--/S01/E02" |}.

(** "Lost 2004 US S01/E02": two path segments. *)
Definition two_levels : Matches :=
  {| items := [span 5 9 "year" "2004"; span 13 16 "season" "1";
               span 17 20 "episodeNumber" "2"];
     markers := [path 0 16; path 17 20];
     input_string := "Lost 2004 US S01/E02" |}.

(** The unmatched "Lost " that opens both strings. *)
Definition lost_hole : Match :=
  {| start := 0; end_ := 5; name := None; tags := []; value := "Lost" |}.

(** "Show/Ep1 Title": a title ends the first segment, an unmatched "Ep1"
    starts the second one, which holds a title of its own. *)
Definition across_segments : Matches :=
  {| items := [span 0 4 "title" "Show"; span 9 14 "title" "Title"];
     markers := [path 0 4; path 5 14];
     input_string := "Show/Ep1 Title" |}.

Definition across_segments_hole : Match :=
  {| start := 5; end_ := 8; name := None; tags := []; value := "Ep1" |}.



(** "A 01 B" with the episode title already found. *)
Definition already_titled : Matches :=
  {| items := [span 0 1 "title" "A"; span 2 4 "episodeNumber" "1";
               span 5 6 "episodeTitle" "B"];
     markers := [path 0 6];
     input_string := "A 01 B" |}.

(** "S01 Show Alt" with a main title that carries no tag. *)
Definition alternative_untagged : Matches :=
  {| items := [span 0 3 "season" "1"; span 4 8 "title" "Show";
               span 9 12 "alternativeTitle" "Alt"];
     markers := [path 0 12];
     input_string := "S01 Show Alt" |}.


Definition alternative_done : Matches :=
  with_items alternative
    [span 0 3 "season" "1";
     {| start := 4; end_ := 8; name := Some "title"; tags := ["title"];
        value := "Show" |};
     span 9 12 "episodeTitle" "Alt"].

(** "A 05 xx B": the second title comes after the episode number, with the
    unmatched text "xx" in between. *)
Definition text_between : Matches :=
  {| items := [span 0 1 "title" "A"; span 2 4 "episodeNumber" "5";
               span 8 9 "title" "B"];
     markers := [path 0 9];
     input_string := "A 05 xx B" |}.

(** "Lost 2004 US/S01/Pilot": two titles, three path segments, a season in
    the directory, and no episode number. *)
Definition no_episode_number : Matches :=
  {| items := [span 0 4 "title" "Lost"; span 5 9 "year" "2004";
               span 13 16 "season" "1"; span 17 22 "title" "Pilot"];
     markers := [path 0 12; path 13 16; path 17 22];
     input_string := "Lost 2004 US/S01/Pilot" |}.

(** "Lost 2004 US/Bonus/E02": an episode number in the file name, and no
    season. *)
Definition no_season : Matches :=
  {| items := [span 5 9 "year" "2004"; span 19 22 "episodeNumber" "2"];
     markers := [path 0 12; path 13 18; path 19 22];
     input_string := "Lost 2004 US/Bonus/E02" |}.




(** A stand-in for the inherited positional rule: it proposes the first
    hole of the whole string that passes the hole filter of the subclass,
    and appends it under the target name. *)
Definition base_when (match_name : string) (match_tags : list string)
    (hooks : EpisodeTitleFromPosition.Hooks) (ms : Matches) : option Match :=
  head (filter (λ h, EpisodeTitleFromPosition.hook_hole_filter hooks h ms)
          (holes ms 0 (String.length (input_string ms)) cleanup seps has_value)).

Definition base_then (ms : Matches) (r : Match) : result Matches :=
  AppendMatch "episodeTitle" ms r.

End Sample.

(** * Properties *)

(** ** Facts about the query surface *)

Section QueryFacts.

Lemma insert_sorted_Permutation m l : insert_sorted m l ≡ₚ m :: l.
Proof.
  induction l as [|x l IH]; simpl; [done |].
  destruct (decide _); [done |]. rewrite IH. apply Permutation_swap.
Qed.

Lemma sorted_Permutation l : sorted l ≡ₚ l.
Proof.
  induction l as [|x l IH]; simpl; [done |].
  by rewrite insert_sorted_Permutation, IH.
Qed.

Lemma insert_sorted_StronglySorted m l :
  StronglySorted span_le l → StronglySorted span_le (insert_sorted m l).
Proof.
  induction 1 as [|x l Hl IH Hx]; simpl.
  - repeat constructor.
  - destruct (decide (span_le m x)) as [Hle|Hnle].
    + constructor; [by constructor |].
      constructor; [done |].
      eapply Forall_impl; [exact Hx |]. intros y Hy. by etrans.
    + constructor; [done |].
      rewrite insert_sorted_Permutation. constructor; [| done].
      by destruct (total span_le m x).
Qed.

Lemma sorted_StronglySorted l : StronglySorted span_le (sorted l).
Proof.
  induction l as [|x l IH]; simpl; [constructor |].
  by apply insert_sorted_StronglySorted.
Qed.

(** Sorting looks at the spans only. *)
Lemma sorted_fmap (f : Match → Match) l :
  (∀ m, start (f m) = start m ∧ end_ (f m) = end_ m) →
  sorted (f <$> l) = f <$> sorted l.
Proof.
  intros Hf.
  assert (∀ m k, insert_sorted (f m) (f <$> k) = f <$> insert_sorted m k) as Hins.
  { intros m k. induction k as [|x k IH]; simpl; [done |].
    assert (span_le (f m) (f x) ↔ span_le m x) as Hiff.
    { unfold span_le. destruct (Hf m) as [Hs He], (Hf x) as [Hs' He']. lia. }
    destruct (decide (span_le m x)), (decide (span_le (f m) (f x)));
      try tauto. rewrite fmap_cons. f_equal. apply IH. }
  induction l as [|x l IH]; [done |].
  rewrite fmap_cons. unfold sorted in *. simpl. by rewrite IH, Hins.
Qed.

Lemma elem_of_sorted l m : m ∈ sorted l ↔ m ∈ l.
Proof. by rewrite sorted_Permutation. Qed.

Lemma named_Permutation nm l : named nm l ≡ₚ filter (has_name nm) l.
Proof. unfold named. by rewrite sorted_Permutation. Qed.

Lemma elem_of_named nm l m : m ∈ named nm l ↔ name m = Some nm ∧ m ∈ l.
Proof. by rewrite named_Permutation, list_elem_of_filter. Qed.

Lemma nonempty_elem_of {A} (l : list A) : nonempty l = true ↔ ∃ x, x ∈ l.
Proof.
  destruct l as [|x l]; simpl; split; try done.
  - intros [x Hx]. by apply elem_of_nil in Hx.
  - intros _. exists x. by left.
Qed.

Lemma present_head {A} (l : list A) : present (head l) = nonempty l.
Proof. by destruct l. Qed.

(** The matches found by the leftward walk are exactly the matches whose
    end is the greatest end not beyond the starting offset. *)
Lemma elem_of_nearest_ending l c p :
  p ∈ nearest_ending l c ↔
    p ∈ l ∧ end_ p ≤ c ∧ ∀ q, q ∈ l → end_ q ≤ c → end_ q ≤ end_ p.
Proof.
  induction c as [|c IH]; simpl.
  - unfold ending. rewrite list_elem_of_filter. split.
    + intros [He Hp]. split_and!; [done | lia | intros; lia].
    + intros (Hp & Hle & _). split; [lia | done].
  - destruct (ending (S c) l) as [|x found] eqn:Hend.
    + rewrite IH. split.
      * intros (Hp & Hle & Hmax). split_and!; [done | lia |].
        intros q Hq Hqc. apply Hmax; [done |].
        destruct (decide (end_ q = S c)) as [Heq|]; [| lia].
        assert (q ∈ ending (S c) l) as Hin
          by (unfold ending; by apply list_elem_of_filter).
        rewrite Hend in Hin. by apply elem_of_nil in Hin.
      * intros (Hp & Hle & Hmax).
        assert (end_ p ≠ S c) as Hne.
        { intros Heq.
          assert (p ∈ ending (S c) l) as Hin
            by (unfold ending; by apply list_elem_of_filter).
          rewrite Hend in Hin. by apply elem_of_nil in Hin. }
        split_and!; [done | lia |].
        intros q Hq Hqc. apply Hmax; [done | lia].
    + rewrite <- Hend. unfold ending. rewrite list_elem_of_filter.
      assert (x ∈ ending (S c) l) as Hx by (rewrite Hend; by left).
      unfold ending in Hx. apply list_elem_of_filter in Hx as [Hxe Hxl].
      split.
      * intros [He Hp]. split_and!; [done | lia | intros; lia].
      * intros (Hp & Hle & Hmax). split; [| done].
        specialize (Hmax x Hxl). lia.
Qed.

Lemma elem_of_previous l anchor (P : Match → Prop) `{!∀ m, Decision (P m)} p :
  p ∈ previous l anchor P ↔
    P p ∧ p ∈ l ∧ end_ p ≤ start anchor ∧
    ∀ q, q ∈ l → end_ q ≤ start anchor → end_ q ≤ end_ p.
Proof.
  unfold previous. by rewrite list_elem_of_filter, elem_of_nearest_ending.
Qed.

(** [list.remove] succeeds on a member and takes out one copy of it. *)
Lemma remove_elem_of m l :
  m ∈ l → ∃ l', remove m l = Ok l' ∧ l ≡ₚ m :: l'.
Proof.
  induction l as [|x l IH]; intros Hin.
  - by apply elem_of_nil in Hin.
  - simpl. destruct (decide (x = m)) as [->|Hne].
    + by exists l.
    + apply elem_of_cons in Hin as [->|Hin]; [done |].
      destruct (IH Hin) as (l' & -> & Hp). exists (x :: l'). split; [done |].
      rewrite Hp. apply Permutation_swap.
Qed.

Lemma retag_elem_of nm m l :
  m ∈ l → ∃ l', retag nm m l = Ok (l' ++ [rename nm m]) ∧ l ≡ₚ m :: l'.
Proof.
  intros Hin. destruct (remove_elem_of m l Hin) as (l' & Hr & Hp).
  exists l'. unfold retag. by rewrite Hr.
Qed.

Lemma remove_Ok m l l' :
  remove m l = Ok l' ↔ ∃ l1 l2, l = l1 ++ (m :: l2) ∧ (m ∉ l1) ∧ l' = l1 ++ l2.
Proof.
  revert l'. induction l as [|x l IH]; intros l'; simpl.
  - split; [done |]. intros (l1 & l2 & Heq & _). by destruct l1.
  - destruct (decide (x = m)) as [->|Hne].
    + split.
      * intros [= <-]. exists [], l. split_and!; [done | | done].
        apply not_elem_of_nil.
      * intros (l1 & l2 & Heq & Hnot & ->). destruct l1 as [|y l1].
        -- by simplify_eq/=.
        -- simplify_eq/=. destruct Hnot. by left.
    + destruct (remove m l) as [r|e] eqn:Hr; simpl.
      * split.
        -- intros [= <-]. destruct (proj1 (IH r) eq_refl) as (l1 & l2 & -> & Hnot & ->).
           exists (x :: l1), l2. split_and!; [done | | done].
           apply not_elem_of_cons. by split.
        -- intros (l1 & l2 & Heq & Hnot & ->). destruct l1 as [|y l1].
           { by simplify_eq/=. }
           simplify_eq/=. apply not_elem_of_cons in Hnot as [_ Hnot].
           f_equal. f_equal.
           assert (Ok r = Ok (l1 ++ l2)) as [= ->]; [| done].
           apply IH. by exists l1, l2.
      * split; [done |]. intros (l1 & l2 & Heq & Hnot & ->).
        destruct l1 as [|y l1]; simplify_eq/=.
        apply not_elem_of_cons in Hnot as [_ Hnot].
        assert (Raise e = Ok (l1 ++ l2)) as Habs; [| done].
        apply IH. by exists l1, l2.
Qed.


Lemma remove_first m l1 l2 : m ∉ l1 → remove m (l1 ++ m :: l2) = Ok (l1 ++ l2).
Proof. intros Hnot. apply remove_Ok. by exists l1, l2. Qed.

End QueryFacts.

(** ** TitleToEpisodeTitle *)

Section TitleToEpisodeTitleFacts.
Import TitleToEpisodeTitle.

Lemma follows_episode_number_spec ms t :
  follows_episode_number ms t = true ↔
    ∃ p, immediately_precedes (items ms) p t ∧ name p = Some "episodeNumber".
Proof.
  unfold follows_episode_number. rewrite nonempty_elem_of.
  split; intros [p Hp]; exists p.
  - apply elem_of_previous in Hp as (Hn & Hin & Hle & Hmax).
    by repeat split.
  - destruct Hp as ((Hin & Hle & Hmax) & Hn). by apply elem_of_previous.
Qed.

Lemma promoted_follows ms m :
  promoted ms m ↔ name m = Some "title" ∧ follows_episode_number ms m.
Proof.
  unfold promoted. rewrite <- follows_episode_number_spec.
  by rewrite Is_true_true.
Qed.

#[global] Instance promoted_dec ms m : Decision (promoted ms m).
Proof.
  refine (cast_if (decide (name m = Some "title" ∧ follows_episode_number ms m)));
    by rewrite promoted_follows.
Defined.

(** The second loop of [when] is a partition of the titles. *)
Lemma foldl_split_step ms titles acc :
  foldl (split_step ms) acc titles =
    (acc.1 ++ filter (follows_episode_number ms) titles,
     acc.2 ++ filter (λ t, ¬ follows_episode_number ms t) titles).
Proof.
  revert acc. induction titles as [|t titles IH]; intros [e m]; simpl.
  - by rewrite !app_nil_r.
  - rewrite IH. unfold split_step. simpl.
    destruct (follows_episode_number ms t) eqn:Hf; simpl.
    + rewrite filter_cons_True, filter_cons_False by (rewrite Hf; naive_solver).
      by rewrite <- app_assoc.
    + rewrite filter_cons_False, filter_cons_True by (rewrite Hf; naive_solver).
      by rewrite <- app_assoc.
Qed.

(** The spans [when] hands to [then]. *)
Definition episode_titles (ms : Matches) : list Match :=
  filter (follows_episode_number ms) (named "title" (items ms)).

Lemma when_spec ms :
  when ms =
    if decide (length (named "title" (items ms)) < 2) then None
    else if nonempty (episode_titles ms) then Some (episode_titles ms)
         else None.
Proof.
  unfold when. destruct (decide _); [done |].
  cbv zeta. by rewrite foldl_split_step.
Qed.

Lemma episode_titles_Permutation ms :
  episode_titles ms ≡ₚ filter (promoted ms) (items ms).
Proof.
  unfold episode_titles. rewrite named_Permutation.
  rewrite list_filter_filter. apply reflexive_eq, list_filter_iff.
  intros m. rewrite promoted_follows. unfold has_name. tauto.
Qed.

(** [then] never raises when every listed span is in the collection, and
    ends with every listed span replaced by its renamed copy. *)
Lemma then_items_Permutation resp : ∀ l rest,
  l ≡ₚ resp ++ rest →
  ∃ l', then_items l resp = Ok l' ∧
        l' ≡ₚ rest ++ (rename "episodeTitle" <$> resp).
Proof.
  induction resp as [|t resp IH]; intros l rest Hp; simpl.
  - exists l. split; [done |]. by rewrite app_nil_r.
  - assert (t ∈ l) as Hin by (rewrite Hp; by left).
    destruct (retag_elem_of "episodeTitle" t l Hin) as (l1 & -> & Hl1).
    simpl. rewrite Hl1 in Hp. apply Permutation_cons_inv in Hp.
    destruct (IH (l1 ++ [rename "episodeTitle" t])
                 (rest ++ [rename "episodeTitle" t])) as (l' & -> & Hl').
    { rewrite Hp. by rewrite app_assoc. }
    exists l'. split; [done |]. rewrite Hl'.
    rewrite <- app_assoc. by apply Permutation_app_head.
Qed.

Lemma fmap_if_Permutation {A} (P : A → Prop) `{!∀ x, Decision (P x)}
    (g : A → A) (l : list A) :
  (λ x, if decide (P x) then g x else x) <$> l
    ≡ₚ filter (λ x, ¬ P x) l ++ (g <$> filter P l).
Proof.
  induction l as [|x l IH]; [done |].
  rewrite fmap_cons, IH. destruct (decide (P x)) as [Hx|Hx].
  - rewrite filter_cons_False, filter_cons_True by tauto.
    rewrite fmap_cons. apply Permutation_middle.
  - by rewrite filter_cons_True, filter_cons_False by tauto.
Qed.

Lemma run_spec ms :
  run ms = Ok ms ∧ when ms = None ∨
  ∃ l', run ms = Ok (with_items ms l') ∧
        when ms = Some (episode_titles ms) ∧
        l' ≡ₚ filter (λ m, ¬ promoted ms m) (items ms)
              ++ (rename "episodeTitle" <$> episode_titles ms).
Proof.
  unfold run, run_rule. rewrite when_spec.
  destruct (decide _); [by left |].
  destruct (nonempty (episode_titles ms)); [| by left].
  right. unfold then_.
  destruct (then_items_Permutation (episode_titles ms) (items ms)
              (filter (λ m, ¬ promoted ms m) (items ms))) as (l' & -> & Hl').
  { rewrite episode_titles_Permutation. symmetry.
    apply filter_app_complement. }
  by exists l'.
Qed.

Lemma when_Some_iff ms :
  when ms ≠ None ↔
    2 ≤ length (named "title" (items ms)) ∧ ∃ t, t ∈ items ms ∧ promoted ms t.
Proof.
  rewrite when_spec. destruct (decide _) as [Hlt|Hge].
  - split; [done |]. intros [Hle _]. lia.
  - destruct (episode_titles ms) as [|t l] eqn:He; simpl.
    + split; [done |]. intros (_ & t & Hin & Hp).
      assert (t ∈ episode_titles ms) as Ht.
      { rewrite episode_titles_Permutation. by apply list_elem_of_filter. }
      rewrite He in Ht. by apply elem_of_nil in Ht.
    + split; [| done]. intros _. split; [lia |]. exists t.
      assert (t ∈ filter (promoted ms) (items ms)) as Ht.
      { rewrite <- episode_titles_Permutation, He. by left. }
      apply list_elem_of_filter in Ht. tauto.
Qed.

End TitleToEpisodeTitleFacts.

(** C1 (as the code has it).  A collection with fewer than two spans named
    [title] is returned as it is.  With two or more, the rule ends without
    raising, and the collection it returns holds, for every span of the
    input, either the span itself or, when the span is a title whose nearest
    span to the left is named [episodeNumber], whatever text lies between
    the two, a span of the same offsets, tags and value named
    [episodeTitle]; markers and input string are those of the input, and
    when no title qualifies the collection is returned as it is. *)
Theorem TitleToEpisodeTitle_contract (ms : Matches) :
  (length (named "title" (items ms)) < 2 → TitleToEpisodeTitle.run ms = Ok ms) ∧
  (2 ≤ length (named "title" (items ms)) →
     ∃ ms', TitleToEpisodeTitle.run ms = Ok ms' ∧
       markers ms' = markers ms ∧ input_string ms' = input_string ms ∧
       items ms' ≡ₚ
         (λ m, if decide (promoted ms m)
               then {| start := start m; end_ := end_ m;
                       name := Some "episodeTitle";
                       tags := tags m; value := value m |}
               else m) <$> items ms ∧
       ((∀ m, m ∈ items ms → ¬ promoted ms m) → ms' = ms)).
Proof.
  split.
  - intros Hlt. unfold TitleToEpisodeTitle.run, run_rule.
    rewrite when_spec. by destruct (decide _).
  - intros Hge.
    destruct (run_spec ms) as [[Hrun Hwhen]|(l' & Hrun & Hwhen & Hl')].
    + exists ms. split_and!; [done | done | done | | done].
      rewrite when_spec in Hwhen.
      assert (episode_titles ms = []) as Hnil.
      { destruct (decide _) as [Hlt|_]; [lia |].
        by destruct (episode_titles ms). }
      rewrite fmap_if_Permutation, <- episode_titles_Permutation, Hnil.
      rewrite fmap_nil, app_nil_r.
      assert (filter (promoted ms) (items ms) = []) as Hnone.
      { apply Permutation_nil_r. by rewrite <- episode_titles_Permutation, Hnil. }
      rewrite <- (filter_app_complement (promoted ms) (items ms)) at 1.
      by rewrite Hnone.
    + exists (with_items ms l'). split_and!; [done | done | done | |].
      * cbn [items with_items]. rewrite Hl', fmap_if_Permutation.
        by rewrite episode_titles_Permutation.
      * intros Hnone. exfalso.
        rewrite when_spec in Hwhen. destruct (decide _); [done |].
        destruct (episode_titles ms) as [|t l] eqn:Het; [done |].
        assert (t ∈ filter (promoted ms) (items ms)) as Ht.
        { rewrite <- episode_titles_Permutation, Het. by left. }
        apply list_elem_of_filter in Ht as [Hp Hin]. by apply (Hnone t).
Qed.

(** ** Values play no part in TitleToEpisodeTitle *)

Section ValueIndependence.
Import TitleToEpisodeTitle.

Lemma filter_fmap_comm {A} (f : A → A) (P Q : A → Prop)
    `{!∀ x, Decision (P x)} `{!∀ x, Decision (Q x)} (l : list A) :
  (∀ x, P (f x) ↔ Q x) → filter P (f <$> l) = f <$> filter Q l.
Proof.
  intros Hpq. induction l as [|x l IH]; [done |].
  rewrite fmap_cons. destruct (decide (Q x)) as [Hq|Hq].
  - rewrite (filter_cons_True P) by (by apply Hpq).
    rewrite (filter_cons_True Q) by done. by rewrite fmap_cons, IH.
  - rewrite (filter_cons_False P) by (by rewrite Hpq).
    by rewrite (filter_cons_False Q) by done.
Qed.

Lemma nonempty_fmap {A B} (f : A → B) (l : list A) :
  nonempty (f <$> l) = nonempty l.
Proof. by destruct l. Qed.

Variable g : Match → string.

Lemma nearest_ending_revalue l c :
  nearest_ending (revalue g <$> l) c = revalue g <$> nearest_ending l c.
Proof.
  assert (∀ pos, ending pos (revalue g <$> l) = revalue g <$> ending pos l) as He.
  { intros pos. by apply filter_fmap_comm. }
  induction c as [|c IH]; simpl; [apply He |].
  rewrite He. destruct (ending (S c) l); [apply IH | done].
Qed.

Lemma follows_episode_number_revalue ms t :
  follows_episode_number (with_items ms (revalue g <$> items ms)) (revalue g t)
  = follows_episode_number ms t.
Proof.
  unfold follows_episode_number, previous. simpl.
  rewrite nearest_ending_revalue.
  rewrite (filter_fmap_comm _ _ (has_name "episodeNumber")) by done.
  apply nonempty_fmap.
Qed.

Lemma named_revalue nm l :
  named nm (revalue g <$> l) = revalue g <$> named nm l.
Proof.
  unfold named. rewrite sorted_fmap by done.
  by apply filter_fmap_comm.
Qed.

Lemma episode_titles_revalue ms :
  episode_titles (with_items ms (revalue g <$> items ms))
  = revalue g <$> episode_titles ms.
Proof.
  unfold episode_titles. simpl. rewrite named_revalue.
  apply filter_fmap_comm. intros t.
  by rewrite follows_episode_number_revalue.
Qed.

End ValueIndependence.

(** C10.  [when] returns what it returns with the [title_groups] loop taken
    out, hence so does the whole rule; and replacing the values of the spans
    by any others changes the selected titles in their values only: which
    titles are selected depends on names and offsets alone. *)
Theorem TitleToEpisodeTitle_grouping_irrelevant (ms : Matches) :
  TitleToEpisodeTitle.when ms = when_ungrouped ms ∧
  TitleToEpisodeTitle.run ms
    = run_rule when_ungrouped TitleToEpisodeTitle.then_ ms ∧
  ∀ g : Match → string,
    TitleToEpisodeTitle.when (with_items ms (revalue g <$> items ms))
    = (λ selected : list Match, revalue g <$> selected)
        <$> TitleToEpisodeTitle.when ms.
Proof.
  assert (TitleToEpisodeTitle.when ms = when_ungrouped ms) as Heq by done.
  split_and!; [done | |].
  - unfold TitleToEpisodeTitle.run, run_rule. by rewrite Heq.
  - intros g. rewrite !when_spec. simpl.
    rewrite episode_titles_revalue, named_revalue, length_fmap, nonempty_fmap.
    destruct (decide _); [done |].
    by destruct (nonempty (episode_titles ms)).
Qed.

(** ** AlternativeTitleReplace *)

Section AlternativeTitleReplaceFacts.
Import AlternativeTitleReplace.

Lemma is_anchor_spec p :
  is_anchor p ↔ ∃ nm, nm ∈ anchor_names ∧ name p = Some nm.
Proof.
  unfold is_anchor, names. rewrite Exists_exists.
  split; intros (nm & Hnm & Hp); exists nm; split; try done.
  - by apply list_elem_of_singleton in Hp.
  - by apply list_elem_of_singleton.
Qed.

Lemma episode_context_spec ms mt :
  present (head (previous (items ms) mt is_anchor))
    || nonempty (named "crc32" (items ms)) = true
  ↔ episode_context ms mt.
Proof.
  rewrite present_head, orb_true_iff, !nonempty_elem_of. unfold episode_context.
  split; (intros [[p Hp]|[c Hc]]; [left; exists p | right; exists c]).
  - apply elem_of_previous in Hp as (Ha & Hin & Hle & Hmax).
    split; [done |]. by apply is_anchor_spec.
  - by apply elem_of_named in Hc as [Hn Hin].
  - destruct Hp as ((Hin & Hle & Hmax) & Ha).
    apply elem_of_previous. split_and!; try done. by apply is_anchor_spec.
  - destruct Hc as [Hin Hn]. by apply elem_of_named.
Qed.

Lemma has_episode_title_spec ms :
  nonempty (named "episodeTitle" (items ms)) = true ↔ has_episode_title ms.
Proof.
  rewrite nonempty_elem_of. unfold has_episode_title.
  split; intros [e He]; exists e; apply elem_of_named in He || apply elem_of_named;
    tauto.
Qed.

(** The head of a chain under construction is settled by its first span. *)
Lemma head_chain_scan_cons l s seps (P : Match → Prop) `{!∀ m, Decision (P m)}
    pos x chain :
  head (chain_scan l s seps P pos (x :: chain)) = Some x.
Proof.
  revert chain. induction pos as [|i IH]; intros chain; simpl; [done |].
  destruct (filter P (at_index i l)) as [|y found].
  - destruct (is_sep seps s i); [apply IH | done].
  - apply IH.
Qed.

Lemma filter_not_elem_of_nil (l : list Match) : filter (λ m, m ∉ []) l = l.
Proof.
  induction l as [|x l IH]; [done |].
  rewrite filter_cons_True by apply not_elem_of_nil. by rewrite IH.
Qed.

Lemma head_chain_scan l s seps (P : Match → Prop) `{!∀ m, Decision (P m)}
    pos mt :
  head (chain_scan l s seps P pos []) = Some mt ↔
    ∃ i, i < pos ∧ head (filter P (at_index i l)) = Some mt ∧
      ∀ j, i < j < pos →
        is_sep seps s j = true ∧ filter P (at_index j l) = [].
Proof.
  induction pos as [|i IH]; simpl.
  - split; [done |]. intros (i & Hi & _). lia.
  - destruct (filter P (at_index i l)) as [|y found] eqn:Hf.
    + destruct (is_sep seps s i) eqn:Hsep.
      * rewrite IH. split; intros (k & Hk & Hhead & Hbetween).
        -- exists k. split_and!; [lia | done |].
           intros j Hj. destruct (decide (j = i)) as [->|]; [done |].
           apply Hbetween. lia.
        -- destruct (decide (k = i)) as [->|].
           { by rewrite Hf in Hhead. }
           exists k. split_and!; [lia | done |].
           intros j Hj. apply Hbetween. lia.
      * split; [done |]. intros (k & Hk & Hhead & Hbetween).
        destruct (decide (k = i)) as [->|].
        { by rewrite Hf in Hhead. }
        destruct (Hbetween i) as [Hs _]; [lia |]. congruence.
    + simpl. rewrite <- Hf at 1. rewrite filter_not_elem_of_nil.
      rewrite Hf. rewrite head_chain_scan_cons. split.
      * intros [= ->]. exists i. split_and!; [lia | by rewrite Hf |].
        intros j Hj. lia.
      * intros (k & Hk & Hhead & Hbetween).
        destruct (decide (k = i)) as [->|].
        { rewrite Hf in Hhead. by simplify_eq/=. }
        destruct (Hbetween i) as [_ Hnil]; [lia |]. congruence.
Qed.

Lemma main_title_spec seps ms a mt :
  head (chain_before ms (start a) seps (λ m, "title" ∈ tags m)) = Some mt
  ↔ chained_main_title seps ms a mt.
Proof.
  unfold chain_before, chained_main_title. rewrite head_chain_scan.
  apply exist_proper; intros i. do 2 apply and_iff_compat_l.
  apply forall_proper; intros j. apply forall_proper; intros Hj.
  apply and_iff_compat_l. split.
  - intros Hnil m Hin Hcov Htag.
    assert (m ∈ filter (λ m, "title" ∈ tags m) (at_index j (items ms))) as Hm.
    { apply list_elem_of_filter. split; [done |].
      by apply list_elem_of_filter. }
    rewrite Hnil in Hm. by apply elem_of_nil in Hm.
  - intros Hnone.
    destruct (filter _ (at_index j (items ms))) as [|m found] eqn:Hf; [done |].
    assert (m ∈ filter (λ m, "title" ∈ tags m) (at_index j (items ms))) as Hm
      by (rewrite Hf; by left).
    apply list_elem_of_filter in Hm as [Htag Hm].
    apply list_elem_of_filter in Hm as [Hcov Hin].
    by destruct (Hnone m Hin Hcov).
Qed.

(** The head of a filtered sorted list precedes every other candidate. *)
Lemma head_filter_StronglySorted (P : Match → Prop) `{!∀ m, Decision (P m)}
    k a :
  StronglySorted span_le k → head (filter P k) = Some a →
  ∀ b, b ∈ k → P b → span_le a b.
Proof.
  induction 1 as [|x k Hk IH Hx]; intros Hhead b Hb HPb.
  - by apply elem_of_nil in Hb.
  - destruct (decide (P x)) as [Hpx|Hpx].
    + rewrite filter_cons_True in Hhead by done. simpl in Hhead.
      injection Hhead as ->.
      apply elem_of_cons in Hb as [->|Hb].
      * unfold span_le. lia.
      * rewrite Forall_forall in Hx. by apply Hx.
    + rewrite filter_cons_False in Hhead by done.
      apply elem_of_cons in Hb as [->|Hb]; [done |]. by apply IH.
Qed.

Lemma head_filter_sorted (P : Match → Prop) `{!∀ m, Decision (P m)} l a :
  head (filter P (sorted l)) = Some a → first_in_document_order P l a.
Proof.
  intros Hhead. unfold first_in_document_order.
  pose proof (head_Some_elem_of _ _ Hhead) as Ha.
  apply list_elem_of_filter in Ha as [HP Ha]. rewrite elem_of_sorted in Ha.
  split; [done |]. split; [done |].
  intros b Hb HPb.
  apply (head_filter_StronglySorted P (sorted l)); try done.
  - apply sorted_StronglySorted.
  - by apply elem_of_sorted.
Qed.

Lemma first_alternative_spec ms a :
  first_alternative ms = Some a →
  first_in_document_order (has_name "alternativeTitle") (items ms) a.
Proof.
  unfold first_alternative, range. rewrite list_filter_filter. intros Hhead.
  apply head_filter_sorted in Hhead as (Hin & [Hn _] & Hfirst).
  split_and!; [done | done |].
  intros b Hb Hnb. apply Hfirst; [done |].
  split; [done |]. unfold inside. split; [lia | done].
Qed.

Lemma first_alternative_None ms :
  first_alternative ms = None →
  ∀ b, b ∈ items ms → name b ≠ Some "alternativeTitle".
Proof.
  unfold first_alternative, range. intros Hhead b Hb Hn.
  apply head_None in Hhead.
  assert (b ∈ filter (has_name "alternativeTitle")
                (filter (inside 0 None) (sorted (items ms)))) as Hin.
  { apply list_elem_of_filter. split; [done |].
    apply list_elem_of_filter. split; [unfold inside; split; [lia | done] |].
    by apply elem_of_sorted. }
  rewrite Hhead in Hin. by apply elem_of_nil in Hin.
Qed.

End AlternativeTitleReplaceFacts.

(** C3.  When a span named [episodeTitle] exists the rule returns the
    collection as it is.  Otherwise, let [a] be the first span named
    [alternativeTitle] in document order.  When a main title is chained to
    [a] and that main title directly follows a span with an anchoring name
    or a [crc32] span exists, the collection returned is the input with the
    first copy of [a] taken out and a span of the same offsets, tags and
    value named [episodeTitle] put at the end, markers and input string
    being those of the input; when not, and when there is no
    [alternativeTitle] at all, the collection is returned as it is. *)
Theorem AlternativeTitleReplace_contract (seps : list ascii) (ms : Matches) :
  (has_episode_title ms → AlternativeTitleReplace.run seps ms = Ok ms) ∧
  (¬ has_episode_title ms →
     (∀ a, first_alternative ms = Some a →
        first_in_document_order (has_name "alternativeTitle") (items ms) a ∧
        ((∃ mt, chained_main_title seps ms a mt ∧ episode_context ms mt) →
           ∃ ms' l1 l2,
             AlternativeTitleReplace.run seps ms = Ok ms' ∧
             items ms = l1 ++ a :: l2 ∧ (a ∉ l1) ∧
             items ms'
             = l1 ++ l2 ++ [{| start := start a; end_ := end_ a;
                               name := Some "episodeTitle";
                               tags := tags a; value := value a |}] ∧
             markers ms' = markers ms ∧
             input_string ms' = input_string ms) ∧
        (¬ (∃ mt, chained_main_title seps ms a mt ∧ episode_context ms mt) →
           AlternativeTitleReplace.run seps ms = Ok ms)) ∧
     (first_alternative ms = None →
        (∀ b, b ∈ items ms → name b ≠ Some "alternativeTitle") ∧
        AlternativeTitleReplace.run seps ms = Ok ms)).
Proof.
  unfold AlternativeTitleReplace.run, run_rule, AlternativeTitleReplace.when.
  fold (first_alternative ms). split.
  - intros He. apply has_episode_title_spec in He. by rewrite He.
  - intros He. rewrite <- has_episode_title_spec in He.
    apply not_true_is_false in He. rewrite He. split.
    + intros a Hfirst. rewrite Hfirst.
      pose proof (first_alternative_spec ms a Hfirst) as Hdoc.
      split; [done |].
      destruct (head (chain_before ms (start a) seps _)) as [mt|] eqn:Hmain.
      * apply main_title_spec in Hmain.
        destruct (present _ || nonempty _) eqn:Hctx.
        -- apply episode_context_spec in Hctx. split; [| naive_solver].
           intros _. destruct Hdoc as (Hin & _ & _).
           apply list_elem_of_split_l in Hin as (l1 & l2 & Heq & Hnot).
           assert (remove a (items ms) = Ok (l1 ++ l2)) as Hr.
           { apply remove_Ok. by exists l1, l2. }
           unfold AlternativeTitleReplace.then_, retag. rewrite Hr.
           eexists _, l1, l2. split; [reflexivity |].
           split_and!; try done.
           cbn [items with_items]. unfold append. by rewrite <- app_assoc.
        -- split; [| done]. intros (mt' & Hmain' & Hctx').
           assert (mt' = mt) as ->.
           { apply main_title_spec in Hmain, Hmain'. congruence. }
           apply episode_context_spec in Hctx'. congruence.
      * split; [| done]. intros (mt' & Hmain' & _).
        apply main_title_spec in Hmain'. congruence.
    + intros Hfirst. rewrite Hfirst. split; [| done].
      by apply first_alternative_None.
Qed.

(** ** EpisodeTitleFromPosition: the hole filter *)

(** C4 (as the code has it).  A hole passes the filter exactly when one of
    the spans met first on the way left from its start, in whatever path
    segment that span lies, has one of the seven anchoring names, or when a
    span named [crc32] exists. *)
Theorem hole_filter_accepts (hole : Match) (ms : Matches) :
  EpisodeTitleFromPosition.hole_filter hole ms = true ↔ episode_context ms hole.
Proof. unfold EpisodeTitleFromPosition.hole_filter. apply episode_context_spec. Qed.

(** ** The path rules *)

Section FilepartFacts.

Lemma from_end_1 {A} (pre : list A) y x : from_end (pre ++ [y; x]) 1 = Ok x.
Proof. unfold from_end. by rewrite reverse_app. Qed.

Lemma from_end_2 {A} (pre : list A) y x : from_end (pre ++ [y; x]) 2 = Ok y.
Proof. unfold from_end. by rewrite reverse_app. Qed.

Lemma from_end_3 {A} (pre : list A) z y x :
  from_end (pre ++ [z; y; x]) 3 = Ok z.
Proof. unfold from_end. by rewrite reverse_app. Qed.

Lemma from_end_1' {A} (pre : list A) z y x :
  from_end (pre ++ [z; y; x]) 1 = Ok x.
Proof. unfold from_end. by rewrite reverse_app. Qed.

Lemma from_end_2' {A} (pre : list A) z y x :
  from_end (pre ++ [z; y; x]) 2 = Ok y.
Proof. unfold from_end. by rewrite reverse_app. Qed.

Lemma last_two {A} (l : list A) :
  ¬ length l < 2 → ∃ pre y x, l = pre ++ [y; x].
Proof.
  intros Hlen. destruct (reverse l) as [|x [|y r]] eqn:Hr.
  - apply (f_equal length) in Hr. rewrite length_reverse in Hr. simpl in Hr. lia.
  - apply (f_equal length) in Hr. rewrite length_reverse in Hr. simpl in Hr. lia.
  - exists (reverse r), y, x. apply (f_equal reverse) in Hr.
    rewrite reverse_involutive in Hr. rewrite Hr.
    by rewrite !reverse_cons, <- !app_assoc.
Qed.

Lemma last_three {A} (l : list A) :
  ¬ length l < 3 → ∃ pre z y x, l = pre ++ [z; y; x].
Proof.
  intros Hlen. destruct (reverse l) as [|x [|y [|z r]]] eqn:Hr;
    try (apply (f_equal length) in Hr; rewrite length_reverse in Hr;
         simpl in Hr; lia).
  exists (reverse r), z, y, x. apply (f_equal reverse) in Hr.
  rewrite reverse_involutive in Hr. rewrite Hr.
  by rewrite !reverse_cons, <- !app_assoc.
Qed.

Lemma app_two_inj {A} (pre pre' : list A) y x y' x' :
  pre ++ [y; x] = pre' ++ [y'; x'] → y = y' ∧ x = x'.
Proof.
  intros Heq. apply (f_equal reverse) in Heq.
  rewrite !reverse_app in Heq. by simplify_eq/=.
Qed.

Lemma app_three_inj {A} (pre pre' : list A) z y x z' y' x' :
  pre ++ [z; y; x] = pre' ++ [z'; y'; x'] → z = z' ∧ y = y' ∧ x = x'.
Proof.
  intros Heq. apply (f_equal reverse) in Heq.
  rewrite !reverse_app in Heq. by simplify_eq/=.
Qed.

Lemma contains_named_spec ms seg nm :
  present (head (range (items ms) (start seg) (Some (end_ seg)) (has_name nm)))
  = true ↔ contains_named ms seg nm.
Proof.
  rewrite present_head, nonempty_elem_of. unfold range, contains_named.
  split; intros [m Hm]; exists m.
  - apply list_elem_of_filter in Hm as [Hn Hm].
    apply list_elem_of_filter in Hm as [[Hlo Hhi] Hm].
    rewrite elem_of_sorted in Hm. done.
  - destruct Hm as (Hin & Hn & Hlo & Hhi).
    apply list_elem_of_filter. split; [done |].
    apply list_elem_of_filter. split; [done |]. by apply elem_of_sorted.
Qed.

Lemma covered_false l i :
  covered l i = false ↔ ∀ m, m ∈ l → ¬ (start m ≤ i < end_ m).
Proof.
  unfold covered. rewrite bool_decide_eq_false. split.
  - intros Hnil m Hin Hcov. apply Hnil. intros Hat.
    assert (m ∈ at_index i l) as Hm by by apply list_elem_of_filter.
    rewrite Hat in Hm. by apply elem_of_nil in Hm.
  - intros Hnone Hne. destruct (at_index i l) as [|m k] eqn:Hat; [done |].
    assert (m ∈ at_index i l) as Hm by (rewrite Hat; by left).
    apply list_elem_of_filter in Hm as [Hcov Hin]. by apply (Hnone m).
Qed.

(** Every gap lies in the scanned range and is free of matches, provided
    the run being read is. *)
Lemma elem_of_gaps l n : ∀ pos open s e,
  (∀ o, open = Some o → o < pos ∧ ∀ i, o ≤ i < pos → covered l i = false) →
  (s, e) ∈ gaps l pos n open →
  default pos open ≤ s ∧ s < e ∧ e ≤ pos + n ∧
  ∀ i, s ≤ i < e → covered l i = false.
Proof.
  induction n as [|n IH]; intros pos open s e Hopen Hin; simpl in Hin.
  - destruct open as [o|]; [| by apply elem_of_nil in Hin].
    apply list_elem_of_singleton in Hin. injection Hin as -> ->.
    destruct (Hopen o eq_refl) as [Hlt Hfree]. simpl. split_and!; [lia.. | done].
  - destruct (covered l pos) eqn:Hcov.
    + destruct open as [o|].
      * apply elem_of_cons in Hin as [Heq|Hin].
        -- injection Heq as -> ->. destruct (Hopen o eq_refl) as [Hlt Hfree].
           simpl. split_and!; [lia.. | done].
        -- apply IH in Hin as (Hs & Hse & He & Hfree); [| done].
           destruct (Hopen o eq_refl) as [Hlt _]. simpl in *.
           split_and!; [lia.. | done].
      * apply IH in Hin as (Hs & Hse & He & Hfree); [| done].
        simpl in *. split_and!; [lia.. | done].
    + apply IH in Hin as (Hs & Hse & He & Hfree).
      * destruct open as [o|]; simpl in *; (split_and!; [lia.. | done]).
      * intros o' [= <-]. destruct open as [o|]; simpl.
        -- destruct (Hopen o eq_refl) as [Hlt Hfree]. split; [lia |].
           intros i Hi. destruct (decide (i = pos)) as [->|]; [done |].
           apply Hfree. lia.
        -- split; [lia |]. intros i Hi. by replace i with pos by lia.
Qed.

Lemma trim_left_spec seps s n : ∀ lo lo' n',
  trim_left seps s lo n = (lo', n') → lo ≤ lo' ∧ lo' + n' = lo + n.
Proof.
  induction n as [|n IH]; intros lo lo' n' Heq; simpl in Heq.
  - injection Heq as <- <-. lia.
  - destruct (is_sep seps s lo).
    + apply IH in Heq. lia.
    + injection Heq as <- <-. lia.
Qed.

Lemma trim_right_le seps s lo n : trim_right seps s lo n ≤ n.
Proof.
  induction n as [|n IH]; simpl; [done |].
  destruct (is_sep seps s (lo + n)); lia.
Qed.

Lemma trim_spec seps s lo hi lo' hi' :
  lo ≤ hi → trim seps s (lo, hi) = Some (lo', hi') →
  lo ≤ lo' ∧ lo' < hi' ∧ hi' ≤ hi.
Proof.
  unfold trim. simpl. intros Hle.
  destruct (trim_left seps s lo (hi - lo)) as [l1 n1] eqn:Hl.
  apply trim_left_spec in Hl as [Hlo Hsum].
  pose proof (trim_right_le seps s l1 n1) as Hr.
  destruct (decide _); [done |]. intros [= <- <-]. lia.
Qed.

Lemma elem_of_holes ms lo hi cleanup seps (P : Match → Prop)
    `{!∀ m, Decision (P m)} h :
  h ∈ holes ms lo hi cleanup seps P →
  P h ∧ lo ≤ start h ∧ start h < end_ h ∧ end_ h ≤ hi ∧
  (∀ m i, m ∈ items ms → start h ≤ i < end_ h → ¬ (start m ≤ i < end_ m)) ∧
  name h = None ∧
  value h = cleanup (substring (start h) (end_ h - start h) (input_string ms)).
Proof.
  unfold holes. rewrite list_elem_of_filter, list_elem_of_fmap.
  intros [HP ([s' e'] & -> & Hin)]. split; [done |].
  apply list_elem_of_omap in Hin as ([s e] & Hgap & Htrim).
  apply elem_of_gaps in Hgap as (Hs & Hse & He & Hfree); [| done].
  apply trim_spec in Htrim as (Hs' & Hse' & He'); [| lia].
  simpl in *. split_and!; try lia; try done.
  intros m i Hm Hi. apply (covered_false (items ms) i); [| done].
  apply Hfree. lia.
Qed.

Lemma first_hole_within title_seps cleanup ms seg h :
  first_hole title_seps cleanup ms seg = Some h → hole_within cleanup ms seg h.
Proof.
  intros Hhead. apply head_Some_elem_of in Hhead.
  apply elem_of_holes in Hhead as (HP & Hlo & Hne & Hhi & Hfree & Hn & Hv).
  unfold hole_within. by split_and!.
Qed.

Lemma covered_true l i :
  covered l i = true ↔ ∃ m, m ∈ l ∧ start m ≤ i < end_ m.
Proof.
  destruct (covered l i) eqn:Hc.
  - split; [intros _ | done]. unfold covered in Hc.
    apply bool_decide_eq_true in Hc.
    destruct (at_index i l) as [|m k] eqn:Hat; [done |].
    assert (m ∈ at_index i l) as Hm by (rewrite Hat; by left).
    apply list_elem_of_filter in Hm as [Hcov Hin]. by exists m.
  - split; [done |]. intros (m & Hin & Hcov).
    rewrite covered_false in Hc. by destruct (Hc m Hin).
Qed.

(** A maximal unmatched run, in terms of the scan's own test. *)
Lemma is_gap_covered l lo hi s e :
  is_gap l lo hi s e ↔
    lo ≤ s ∧ s < e ∧ e ≤ hi ∧ (∀ i, s ≤ i < e → covered l i = false) ∧
    (s = lo ∨ covered l (s - 1) = true) ∧ (e = hi ∨ covered l e = true).
Proof.
  unfold is_gap. rewrite !covered_true.
  split; intros (H1 & H2 & H3 & Hfree & H5 & H6); split_and!; try done.
  - intros i Hi. apply covered_false. by apply Hfree.
  - intros i Hi. apply covered_false. by apply Hfree.
Qed.

(** The scan returns exactly the maximal unmatched runs that start at or
    after the run being read. *)
Lemma gaps_spec l lo n : ∀ pos open s e,
  lo ≤ pos →
  match open with
  | Some o => lo ≤ o ∧ o < pos ∧ (∀ i, o ≤ i < pos → covered l i = false) ∧
              (o = lo ∨ covered l (o - 1) = true)
  | None => pos = lo ∨ covered l (pos - 1) = true
  end →
  (s, e) ∈ gaps l pos n open ↔
    (lo ≤ s ∧ s < e ∧ e ≤ pos + n ∧ (∀ i, s ≤ i < e → covered l i = false) ∧
     (s = lo ∨ covered l (s - 1) = true) ∧
     (e = pos + n ∨ covered l e = true)) ∧
    default pos open ≤ s.
Proof.
  induction n as [|n IH]; intros pos open s e Hlo Hst; simpl.
  - destruct open as [o|]; simpl.
    + destruct Hst as (Hlo' & Hop & Hfree & Hleft).
      rewrite list_elem_of_singleton. split.
      * intros [= -> ->]. split; [| lia].
        split_and!; try lia; try done; left; lia.
      * intros ((Hs & Hse & He & Hfree' & Hl & Hr) & Hos).
        assert (s = o) as ->.
        { destruct (decide (s = o)) as [|Hne]; [done |]. exfalso.
          destruct Hl as [->|Hc]; [lia |]. rewrite Hfree in Hc by lia. done. }
        assert (e = pos) as ->; [| done].
        destruct (decide (e = pos)) as [|Hne]; [done |]. exfalso.
        destruct Hr as [->|Hc]; [lia |]. rewrite Hfree in Hc by lia. done.
    + split; [intros Hin; by apply elem_of_nil in Hin |].
      intros ((? & ? & ? & _) & ?). lia.
  - assert (S pos = lo ∨ covered l (S pos - 1) = true → 
            ∀ s e, (s, e) ∈ gaps l (S pos) n None ↔
              (lo ≤ s ∧ s < e ∧ e ≤ pos + S n ∧
               (∀ i, s ≤ i < e → covered l i = false) ∧
               (s = lo ∨ covered l (s - 1) = true) ∧
               (e = pos + S n ∨ covered l e = true)) ∧ S pos ≤ s) as IHnone.
    { intros Hb s' e'. rewrite (IH (S pos) None s' e' ltac:(lia) Hb).
      by replace (pos + S n) with (S pos + n) by lia. }
    destruct (covered l pos) eqn:Hcov.
    + assert (S pos = lo ∨ covered l (S pos - 1) = true) as Hb.
      { right. by replace (S pos - 1) with pos by lia. }
      specialize (IHnone Hb).
      destruct open as [o|]; simpl.
      * destruct Hst as (Hlo' & Hop & Hfree & Hleft).
        rewrite elem_of_cons, IHnone. split.
        -- intros [[= -> ->]|[Hgap Hs]].
           ++ split; [| lia]. split_and!; try lia; try done. by right.
           ++ split; [done | lia].
        -- intros ((Hs & Hse & He & Hfree' & Hl & Hr) & Hos).
           destruct (decide (S pos ≤ s)) as [Hge|Hlt]; [by right |].
           left.
           assert (s ≠ pos) as Hsp.
           { intros ->. rewrite Hfree' in Hcov by lia. done. }
           assert (s = o) as ->.
           { destruct (decide (s = o)) as [|Hne]; [done |]. exfalso.
             destruct Hl as [->|Hc]; [lia |].
             rewrite Hfree in Hc by lia. done. }
           assert (e ≤ pos) as Hep.
           { destruct (decide (e ≤ pos)); [done |]. exfalso.
             rewrite (Hfree' pos) in Hcov by lia. done. }
           assert (e = pos) as ->; [| done].
           destruct (decide (e = pos)) as [|Hne]; [done |]. exfalso.
           destruct Hr as [->|Hc]; [lia |]. rewrite Hfree in Hc by lia. done.
      * rewrite IHnone. split.
        -- intros [Hgap Hs]. split; [done | lia].
        -- intros [Hgap Hs]. split; [done |].
           destruct Hgap as (? & ? & ? & Hfree' & _).
           destruct (decide (s = pos)) as [->|]; [| lia].
           rewrite Hfree' in Hcov by lia. done.
    + rewrite (IH (S pos) (Some (default pos open)) s e).
      * by replace (pos + S n) with (S pos + n) by lia.
      * lia.
      * destruct open as [o|]; simpl.
        -- destruct Hst as (Hlo' & Hop & Hfree & Hleft).
           split_and!; try lia; try done.
           intros i Hi. destruct (decide (i = pos)) as [->|]; [done |].
           apply Hfree. lia.
        -- split_and!; try lia; try done.
           intros i Hi. by replace i with pos by lia.
Qed.

(** The runs come out from left to right, each ending before the next
    starts. *)
Lemma gaps_sorted l n : ∀ pos open,
  (∀ o, open = Some o → o < pos ∧ ∀ i, o ≤ i < pos → covered l i = false) →
  StronglySorted (λ g g' : nat * nat, g.2 ≤ g'.1) (gaps l pos n open).
Proof.
  induction n as [|n IH]; intros pos open Hopen; simpl.
  - destruct open; repeat constructor.
  - destruct (covered l pos) eqn:Hcov.
    + destruct open as [o|]; [| by apply IH].
      constructor; [by apply IH |]. apply Forall_forall. intros [s e] Hin.
      apply elem_of_gaps in Hin as (Hs & _); [| done]. simpl in *. lia.
    + apply IH. intros o' [= <-]. destruct open as [o|]; simpl.
      * destruct (Hopen o eq_refl) as [Hlt Hfree]. split; [lia |].
        intros i Hi. destruct (decide (i = pos)) as [->|]; [done |].
        apply Hfree. lia.
      * split; [lia |]. intros i Hi. by replace i with pos by lia.
Qed.

Lemma trim_left_seps seps s n : ∀ lo lo' n',
  trim_left seps s lo n = (lo', n') →
  (∀ j, lo ≤ j < lo' → is_sep seps s j = true) ∧
  (n' = 0 ∨ is_sep seps s lo' = false).
Proof.
  induction n as [|n IH]; intros lo lo' n' Heq; simpl in Heq.
  - injection Heq as <- <-. split; [intros; lia | by left].
  - destruct (is_sep seps s lo) eqn:Hsep.
    + pose proof (trim_left_spec _ _ _ _ _ _ Heq) as [Hle _].
      apply IH in Heq as [Hall Hend]. split; [| done].
      intros j Hj. destruct (decide (j = lo)) as [->|]; [done |].
      apply Hall. lia.
    + injection Heq as <- <-. split; [intros; lia | by right].
Qed.

Lemma trim_right_seps seps s lo n :
  (∀ j, lo + trim_right seps s lo n ≤ j < lo + n → is_sep seps s j = true) ∧
  (trim_right seps s lo n = 0 ∨
   is_sep seps s (lo + trim_right seps s lo n - 1) = false).
Proof.
  induction n as [|n [Hall Hend]]; simpl.
  - split; [intros; lia | by left].
  - destruct (is_sep seps s (lo + n)) eqn:Hsep.
    + split; [| done]. intros j Hj.
      destruct (decide (j = lo + n)) as [->|]; [done |]. apply Hall. lia.
    + split; [intros; lia |]. right.
      by replace (lo + S n - 1) with (lo + n) by lia.
Qed.

(** [trim] returns what is left of a run once the separators at its ends
    are gone, and nothing when the run holds separators only. *)
Lemma trim_Some seps str s e s' e' :
  s ≤ e →
  trim seps str (s, e) = Some (s', e') ↔ is_trimmed seps str s e s' e'.
Proof.
  intros Hse. unfold trim, is_trimmed. simpl.
  destruct (trim_left seps str s (e - s)) as [l1 n1] eqn:Hl.
  pose proof (trim_left_spec _ _ _ _ _ _ Hl) as [Hlo Hsum].
  apply trim_left_seps in Hl as [Hleft Hfirst].
  pose proof (trim_right_le seps str l1 n1) as Hle.
  destruct (trim_right_seps seps str l1 n1) as [Hright Hlast].
  set (n2 := trim_right seps str l1 n1) in *.
  destruct (decide (n2 = 0)) as [Hz|Hnz].
  - split; [done |]. intros (H1 & H2 & H3 & Hl' & Hr' & Hf & Hb). exfalso.
    destruct (decide (s' < l1)) as [Hlt|Hge].
    + rewrite Hleft in Hf by lia. done.
    + rewrite Hright in Hf by lia. done.
  - assert (is_sep seps str l1 = false) as Hf1.
    { destruct Hfirst as [->|]; [lia | done]. }
    assert (is_sep seps str (l1 + n2 - 1) = false) as Hb1.
    { destruct Hlast as [|]; [lia | done]. }
    split.
    + intros [= <- <-]. split_and!; try lia; try done.
      intros j Hj. apply Hright. lia.
    + intros (H1 & H2 & H3 & Hl' & Hr' & Hf & Hb).
      assert (s' = l1) as ->.
      { destruct (decide (s' < l1)) as [Hlt|Hge].
        - rewrite Hleft in Hf by lia. done.
        - destruct (decide (l1 < s')) as [Hlt'|]; [| lia].
          rewrite Hl' in Hf1 by lia. done. }
      assert (e' = l1 + n2) as ->; [| done].
      destruct (decide (e' < l1 + n2)) as [Hlt|Hge].
      * rewrite Hr' in Hb1 by lia. done.
      * destruct (decide (l1 + n2 < e')) as [Hlt'|]; [| lia].
        rewrite Hright in Hb by lia. done.
Qed.

Lemma StronglySorted_head {A} (R : A → A → Prop) (l : list A) x :
  StronglySorted R l → head l = Some x → ∀ y, y ∈ l → y = x ∨ R x y.
Proof.
  intros Hs Hhead y Hy. destruct Hs as [|x' l Hl Hx]; [done |].
  simpl in Hhead. injection Hhead as ->.
  apply elem_of_cons in Hy as [->|Hy]; [by left |].
  right. rewrite Forall_forall in Hx. by apply Hx.
Qed.

(** The holes of a range come out from left to right. *)
Lemma holes_sorted ms lo hi cleanup seps (P : Match → Prop)
    `{!∀ m, Decision (P m)} :
  StronglySorted (λ h h', start h < start h')
    (holes ms lo hi cleanup seps P).
Proof.
  unfold holes.
  pose proof (gaps_sorted (items ms) (hi - lo) lo None) as Hs.
  assert (Forall (λ g : nat * nat, g.1 ≤ g.2)
            (gaps (items ms) lo (hi - lo) None)) as Hb.
  { apply Forall_forall. intros [s e] Hin.
    apply elem_of_gaps in Hin as (_ & Hlt & _); [| done]. simpl. lia. }
  specialize (Hs ltac:(done)).
  induction Hs as [|g G HG IH Hg]; simpl; [constructor |].
  apply Forall_cons in Hb as [Hg1 Hb]. specialize (IH Hb).
  destruct (trim seps (input_string ms) g) as [t|] eqn:Ht; [| done].
  rewrite fmap_cons. destruct (decide (P (hole_of cleanup (input_string ms) t)));
    [| by rewrite filter_cons_False].
  rewrite filter_cons_True by done. constructor; [done |].
  apply Forall_forall. intros h' Hh'.
  apply list_elem_of_filter in Hh' as [_ Hh'].
  apply list_elem_of_fmap in Hh' as (t' & -> & Ht').
  apply list_elem_of_omap in Ht' as (g' & Hg' & Htrim').
  rewrite Forall_forall in Hg, Hb.
  pose proof (Hg g' Hg') as Hord. pose proof (Hb g' Hg') as Hg1'.
  destruct g as [s e], t as [s1 e1], g' as [s' e'], t' as [s1' e1'].
  simpl in *.
  apply trim_spec in Ht; [| done]. apply trim_spec in Htrim'; [| done]. lia.
Qed.

(** The holes the scan returns are the non-empty holes of the range. *)
Lemma elem_of_holes_iff title_seps cleanup ms seg h :
  h ∈ holes ms (start seg) (end_ seg) cleanup title_seps has_value
  ↔ is_hole title_seps cleanup ms seg h.
Proof.
  unfold holes, is_hole. rewrite list_elem_of_filter, list_elem_of_fmap.
  assert (∀ s e,
            (s, e) ∈ gaps (items ms) (start seg) (end_ seg - start seg) None
            ↔ is_gap (items ms) (start seg) (end_ seg) s e) as Hgaps.
  { intros s e. rewrite is_gap_covered.
    rewrite (gaps_spec (items ms) (start seg)) by (done || by left).
    simpl. split.
    - intros ((H1 & H2 & H3 & H4 & H5 & H6) & _).
      assert (start seg + (end_ seg - start seg) = end_ seg) as Heq by lia.
      rewrite Heq in H3, H6. done.
    - intros (H1 & H2 & H3 & H4 & H5 & H6).
      assert (start seg + (end_ seg - start seg) = end_ seg) as Heq by lia.
      rewrite Heq. done. }
  split.
  - intros [HP ([s' e'] & -> & Hin)].
    apply list_elem_of_omap in Hin as ([s e] & Hgap & Htrim).
    pose proof Hgap as Hlt. apply elem_of_gaps in Hlt as (_ & Hlt & _); [| done].
    apply Hgaps in Hgap. apply trim_Some in Htrim; [| lia].
    split_and!; try done. by exists s, e.
  - intros ((s & e & Hgap & Htrim) & Hn & Ht & Hv & Hne). split; [done |].
    exists (start h, end_ h). split.
    + destruct h as [hs he hn ht hv]. simpl in *. by subst.
    + apply list_elem_of_omap. exists (s, e). split; [by apply Hgaps |].
      apply trim_Some; [| done]. destruct Hgap as (_ & Hlt & _). lia.
Qed.

(** The hole a path rule takes is the first non-empty hole of the range. *)
Lemma first_hole_spec title_seps cleanup ms seg h :
  first_hole title_seps cleanup ms seg = Some h
  ↔ is_first_hole title_seps cleanup ms seg h.
Proof.
  unfold first_hole, is_first_hole.
  pose proof (holes_sorted ms (start seg) (end_ seg) cleanup title_seps
                has_value) as Hsorted.
  split.
  - intros Hhead. split.
    + apply elem_of_holes_iff. by apply head_Some_elem_of.
    + intros h' Hh'. apply elem_of_holes_iff in Hh'.
      destruct (StronglySorted_head _ _ _ Hsorted Hhead h' Hh') as [->|Hlt];
        lia.
  - intros [Hh Hfirst]. pose proof Hh as Hin. apply elem_of_holes_iff in Hin.
    destruct (head (holes ms (start seg) (end_ seg) cleanup title_seps
                      has_value)) as [h0|] eqn:Hhead.
    + destruct (StronglySorted_head _ _ _ Hsorted Hhead h Hin) as [->|Hlt];
        [done |].
      apply head_Some_elem_of in Hhead. apply elem_of_holes_iff in Hhead.
      specialize (Hfirst h0 Hhead). lia.
    + apply head_None in Hhead. rewrite Hhead in Hin.
      by apply elem_of_nil in Hin.
Qed.

Lemma filepart3_fires_applies title_seps cleanup ms h :
  filepart3_fires title_seps cleanup ms h
  ↔ filepart3_applies title_seps cleanup ms h.
Proof.
  unfold filepart3_fires, filepart3_applies.
  split; intros (pre & sub & dir & file & Hparts & Hep & Hse & Hhole);
    exists pre, sub, dir, file; split_and!; try done;
    by apply first_hole_spec.
Qed.

Lemma filepart2_fires_applies title_seps cleanup ms h :
  filepart2_fires title_seps cleanup ms h
  ↔ filepart2_applies title_seps cleanup ms h.
Proof.
  unfold filepart2_fires, filepart2_applies.
  split; intros (pre & dir & file & Hparts & Hep & Hse & Hhole);
    exists pre, dir, file; split_and!; try done;
    by apply first_hole_spec.
Qed.

End FilepartFacts.

Lemma Filepart3EpisodeTitle_run_applies title_seps cleanup ms h :
  filepart3_applies title_seps cleanup ms h →
  Filepart3EpisodeTitle.run title_seps cleanup ms = Ok (with_title ms h).
Proof.
  unfold Filepart3EpisodeTitle.run, Filepart3EpisodeTitle.when.
  intros (pre & sub & dir & file & Hparts & Hep & Hse & Hhole).
  rewrite Hparts. rewrite from_end_1', from_end_2', from_end_3.
  destruct (decide _) as [Hlt|_].
  { rewrite length_app in Hlt. simpl in Hlt. lia. }
  simpl. apply contains_named_spec in Hep, Hse. rewrite Hep, Hse.
  unfold first_hole in Hhole. by rewrite Hhole.
Qed.

Lemma Filepart3EpisodeTitle_run_otherwise title_seps cleanup ms :
  (¬ ∃ h, filepart3_applies title_seps cleanup ms h) →
  Filepart3EpisodeTitle.run title_seps cleanup ms = Ok ms.
Proof.
  unfold Filepart3EpisodeTitle.run, Filepart3EpisodeTitle.when.
  intros Hnone. destruct (decide _) as [Hlt|Hge]; [done |].
  destruct (last_three _ Hge) as (pre & sub & dir & file & Hparts).
  rewrite Hparts. rewrite from_end_1', from_end_2', from_end_3. simpl.
  destruct (present (head (range _ (start file) _ _))) eqn:Hep; [| done].
  destruct (present (head (range _ (start dir) _ _))) eqn:Hse; [| done].
  destruct (head (holes _ _ _ _ _ _)) as [h|] eqn:Hhole; [| done].
  destruct Hnone. exists h, pre, sub, dir, file.
  by rewrite <- !contains_named_spec.
Qed.

Lemma Filepart2EpisodeTitle_run_applies title_seps cleanup ms h :
  filepart2_applies title_seps cleanup ms h →
  Filepart2EpisodeTitle.run title_seps cleanup ms = Ok (with_title ms h).
Proof.
  unfold Filepart2EpisodeTitle.run, Filepart2EpisodeTitle.when.
  intros (pre & dir & file & Hparts & Hep & Hse & Hhole).
  rewrite Hparts. rewrite from_end_1, from_end_2.
  destruct (decide _) as [Hlt|_].
  { rewrite length_app in Hlt. simpl in Hlt. lia. }
  simpl. apply contains_named_spec in Hep, Hse. rewrite Hep, Hse.
  unfold first_hole in Hhole. by rewrite Hhole.
Qed.

Lemma Filepart2EpisodeTitle_run_otherwise title_seps cleanup ms :
  (¬ ∃ h, filepart2_applies title_seps cleanup ms h) →
  Filepart2EpisodeTitle.run title_seps cleanup ms = Ok ms.
Proof.
  unfold Filepart2EpisodeTitle.run, Filepart2EpisodeTitle.when.
  intros Hnone. destruct (decide _) as [Hlt|Hge]; [done |].
  destruct (last_two _ Hge) as (pre & dir & file & Hparts).
  rewrite Hparts. rewrite from_end_1, from_end_2. simpl.
  destruct (present (head (range _ (start file) _ _))) eqn:Hep; [| done].
  destruct (present (head (range _ (start dir) _ _))) eqn:Hse; [| done].
  destruct (head (holes _ _ _ _ _ _)) as [h|] eqn:Hhole; [| done].
  destruct Hnone. exists h, pre, dir, file.
  by rewrite <- !contains_named_spec.
Qed.

Lemma Filepart3EpisodeTitle_run_cases title_seps cleanup ms :
  Filepart3EpisodeTitle.run title_seps cleanup ms = Ok ms ∨
  ∃ h, Filepart3EpisodeTitle.run title_seps cleanup ms = Ok (with_title ms h).
Proof.
  unfold Filepart3EpisodeTitle.run.
  destruct (Filepart3EpisodeTitle.when title_seps cleanup ms) as [[h|]|e] eqn:Hw.
  - right. by exists h.
  - by left.
  - exfalso. revert Hw. unfold Filepart3EpisodeTitle.when.
    destruct (decide _) as [Hlt|Hge]; [done |].
    destruct (last_three _ Hge) as (pre & sub & dir & file & ->).
    rewrite from_end_1', from_end_2', from_end_3. simpl.
    by repeat destruct (present _).
Qed.

Lemma Filepart2EpisodeTitle_run_cases title_seps cleanup ms :
  Filepart2EpisodeTitle.run title_seps cleanup ms = Ok ms ∨
  ∃ h, Filepart2EpisodeTitle.run title_seps cleanup ms = Ok (with_title ms h).
Proof.
  unfold Filepart2EpisodeTitle.run.
  destruct (Filepart2EpisodeTitle.when title_seps cleanup ms) as [[h|]|e] eqn:Hw.
  - right. by exists h.
  - by left.
  - exfalso. revert Hw. unfold Filepart2EpisodeTitle.when.
    destruct (decide _) as [Hlt|Hge]; [done |].
    destruct (last_two _ Hge) as (pre & dir & file & ->).
    rewrite from_end_1, from_end_2. simpl.
    by repeat destruct (present _).
Qed.

Lemma Filepart3EpisodeTitle_run_inv title_seps cleanup ms ms' :
  Filepart3EpisodeTitle.run title_seps cleanup ms = Ok ms' →
  ms' = ms ∨
  ∃ h, filepart3_applies title_seps cleanup ms h ∧ ms' = with_title ms h.
Proof.
  unfold Filepart3EpisodeTitle.run, Filepart3EpisodeTitle.when.
  destruct (decide _) as [Hlt|Hge]; [intros [= <-]; by left |].
  destruct (last_three _ Hge) as (pre & sub & dir & file & Hparts).
  rewrite Hparts. rewrite from_end_1', from_end_2', from_end_3. simpl.
  destruct (present (head (range _ (start file) _ _))) eqn:Hep;
    [| intros [= <-]; by left].
  destruct (present (head (range _ (start dir) _ _))) eqn:Hse;
    [| intros [= <-]; by left].
  destruct (head (holes _ _ _ _ _ _)) as [h|] eqn:Hhole;
    [| intros [= <-]; by left].
  intros [= <-]. right. exists h. split; [| done].
  exists pre, sub, dir, file. by rewrite <- !contains_named_spec.
Qed.

Lemma Filepart2EpisodeTitle_run_inv title_seps cleanup ms ms' :
  Filepart2EpisodeTitle.run title_seps cleanup ms = Ok ms' →
  ms' = ms ∨
  ∃ h, filepart2_applies title_seps cleanup ms h ∧ ms' = with_title ms h.
Proof.
  unfold Filepart2EpisodeTitle.run, Filepart2EpisodeTitle.when.
  destruct (decide _) as [Hlt|Hge]; [intros [= <-]; by left |].
  destruct (last_two _ Hge) as (pre & dir & file & Hparts).
  rewrite Hparts. rewrite from_end_1, from_end_2. simpl.
  destruct (present (head (range _ (start file) _ _))) eqn:Hep;
    [| intros [= <-]; by left].
  destruct (present (head (range _ (start dir) _ _))) eqn:Hse;
    [| intros [= <-]; by left].
  destruct (head (holes _ _ _ _ _ _)) as [h|] eqn:Hhole;
    [| intros [= <-]; by left].
  intros [= <-]. right. exists h. split; [| done].
  exists pre, dir, file. by rewrite <- !contains_named_spec.
Qed.

(** C5.  [Filepart3EpisodeTitle] returns the collection with one span more
    at the end, named [title] and with the offsets and the value of the hole
    [h], when the path markers end with [subdirectory; directory; filename],
    the range of [filename] holds an [episodeNumber], the range of
    [directory] holds a [season] and [h] is the first non-empty hole of the
    range of [subdirectory]: a maximal unmatched run of the range, trimmed
    of the title separators at its ends, whose cleaned-up text is not empty,
    no other such hole starting before it.  In every other case, among them
    fewer than three path markers, the collection is returned as it is; and
    a result with other spans than the input comes from such a hole. *)
Theorem Filepart3EpisodeTitle_contract (title_seps : list ascii)
    (cleanup : string → string) (ms : Matches) :
  (∀ h, filepart3_fires title_seps cleanup ms h →
     ∃ ms', Filepart3EpisodeTitle.run title_seps cleanup ms = Ok ms' ∧
       items ms'
       = items ms ++ [{| start := start h; end_ := end_ h;
                         name := Some "title";
                         tags := tags h; value := value h |}] ∧
       markers ms' = markers ms ∧ input_string ms' = input_string ms) ∧
  ((¬ ∃ h, filepart3_fires title_seps cleanup ms h) →
     Filepart3EpisodeTitle.run title_seps cleanup ms = Ok ms) ∧
  (∀ ms', Filepart3EpisodeTitle.run title_seps cleanup ms = Ok ms' →
     items ms' ≠ items ms → ∃ h, filepart3_fires title_seps cleanup ms h) ∧
  (length (named "path" (markers ms)) < 3 →
     ¬ ∃ h, filepart3_fires title_seps cleanup ms h).
Proof.
  split_and!.
  - intros h Hh. apply filepart3_fires_applies in Hh.
    rewrite (Filepart3EpisodeTitle_run_applies _ _ _ _ Hh).
    by eexists.
  - intros Hnone. apply Filepart3EpisodeTitle_run_otherwise.
    intros [h Hh]. apply Hnone. exists h. by apply filepart3_fires_applies.
  - intros ms' Hrun Hne.
    apply Filepart3EpisodeTitle_run_inv in Hrun as [->|(h & Hh & _)]; [done |].
    exists h. by apply filepart3_fires_applies.
  - intros Hlt (h & pre & sub & dir & file & Hparts & _).
    rewrite Hparts, length_app in Hlt. simpl in Hlt. lia.
Qed.

(** C6.  [Filepart2EpisodeTitle] returns the collection with one span more
    at the end, named [title] and with the offsets and the value of the hole
    [h], when the path markers end with [directory; filename], the range of
    [filename] holds an [episodeNumber], the range of [directory] holds a
    [season] and [h] is the first non-empty hole of the range of [directory]
    itself.  In every other case, among them fewer than two path markers,
    the collection is returned as it is; and a result with other spans than
    the input comes from such a hole. *)
Theorem Filepart2EpisodeTitle_contract (title_seps : list ascii)
    (cleanup : string → string) (ms : Matches) :
  (∀ h, filepart2_fires title_seps cleanup ms h →
     ∃ ms', Filepart2EpisodeTitle.run title_seps cleanup ms = Ok ms' ∧
       items ms'
       = items ms ++ [{| start := start h; end_ := end_ h;
                         name := Some "title";
                         tags := tags h; value := value h |}] ∧
       markers ms' = markers ms ∧ input_string ms' = input_string ms) ∧
  ((¬ ∃ h, filepart2_fires title_seps cleanup ms h) →
     Filepart2EpisodeTitle.run title_seps cleanup ms = Ok ms) ∧
  (∀ ms', Filepart2EpisodeTitle.run title_seps cleanup ms = Ok ms' →
     items ms' ≠ items ms → ∃ h, filepart2_fires title_seps cleanup ms h) ∧
  (length (named "path" (markers ms)) < 2 →
     ¬ ∃ h, filepart2_fires title_seps cleanup ms h).
Proof.
  split_and!.
  - intros h Hh. apply filepart2_fires_applies in Hh.
    rewrite (Filepart2EpisodeTitle_run_applies _ _ _ _ Hh).
    by eexists.
  - intros Hnone. apply Filepart2EpisodeTitle_run_otherwise.
    intros [h Hh]. apply Hnone. exists h. by apply filepart2_fires_applies.
  - intros ms' Hrun Hne.
    apply Filepart2EpisodeTitle_run_inv in Hrun as [->|(h & Hh & _)]; [done |].
    exists h. by apply filepart2_fires_applies.
  - intros Hlt (h & pre & dir & file & Hparts & _).
    rewrite Hparts, length_app in Hlt. simpl in Hlt. lia.
Qed.

(** ** Running a rule twice *)

Section Idempotence.

Lemma filter_nil_intro {A} (P : A → Prop) `{!∀ x, Decision (P x)} (l : list A) :
  (∀ x, x ∈ l → ¬ P x) → filter P l = [].
Proof.
  intros Hnone. induction l as [|x l IH]; [done |].
  rewrite filter_cons_False by (apply Hnone; by left).
  apply IH. intros y Hy. apply Hnone. by right.
Qed.

Lemma TitleToEpisodeTitle_idempotent : idempotent TitleToEpisodeTitle.run.
Proof.
  intros ms ms' Hrun.
  destruct (run_spec ms) as [[Hrun' _]|(l' & Hrun' & _ & Hl')];
    rewrite Hrun' in Hrun; injection Hrun as <-; [done |].
  assert (∀ m, m ∈ l' → name m ≠ Some "episodeTitle" →
               m ∈ items ms ∧ ¬ promoted ms m) as Hold.
  { intros m Hm Hn. rewrite Hl' in Hm. apply elem_of_app in Hm as [Hm|Hm].
    - apply list_elem_of_filter in Hm. tauto.
    - apply list_elem_of_fmap in Hm as (m0 & -> & _). done. }
  assert (∀ q, q ∈ items ms → ∃ q', q' ∈ l' ∧ end_ q' = end_ q) as Hends.
  { intros q Hq. destruct (decide (promoted ms q)) as [Hp|Hp].
    - exists (rename "episodeTitle" q). split; [| done].
      rewrite Hl'. apply elem_of_app. right. apply list_elem_of_fmap_2.
      rewrite episode_titles_Permutation. by apply list_elem_of_filter.
    - exists q. split; [| done].
      rewrite Hl'. apply elem_of_app. left. by apply list_elem_of_filter. }
  assert (episode_titles (with_items ms l') = []) as Hnil.
  { apply filter_nil_intro. intros t Ht Hfollows. simpl in Ht.
    apply elem_of_named in Ht as [Hn Ht].
    destruct (Hold t Ht) as [Hin Hnot]; [congruence |].
    apply Hnot. split; [done |].
    apply Is_true_true, follows_episode_number_spec in Hfollows.
    destruct Hfollows as (p & (Hp & Hle & Hmax) & Hpn). simpl in *.
    destruct (Hold p Hp) as [Hpin _]; [congruence |].
    exists p. split; [| done]. split_and!; [done | done |].
    intros q Hq Hqle. destruct (Hends q Hq) as (q' & Hq' & Heq).
    rewrite <- Heq. apply Hmax; [done | lia]. }
  unfold TitleToEpisodeTitle.run, run_rule. rewrite when_spec, Hnil.
  by destruct (decide _).
Qed.

Lemma AlternativeTitleReplace_idempotent seps :
  idempotent (AlternativeTitleReplace.run seps).
Proof.
  intros ms ms'. unfold AlternativeTitleReplace.run, run_rule.
  destruct (AlternativeTitleReplace.when seps ms) as [a|] eqn:Hwhen.
  - unfold AlternativeTitleReplace.then_, retag.
    destruct (remove a (items ms)) as [l'|] eqn:Hr; [| done].
    simpl. intros [= <-].
    assert (has_episode_title (with_items ms (append (rename "episodeTitle" a) l')))
      as He.
    { exists (rename "episodeTitle" a). split; [| done].
      simpl. apply elem_of_app. right. by left. }
    apply has_episode_title_spec in He.
    unfold AlternativeTitleReplace.when at 1. by rewrite He.
  - intros [= <-]. by rewrite Hwhen.
Qed.

Lemma EpisodeTitleFromPosition_guard
    (super_is_ignored : Match → bool)
    (super_should_keep :
       Match → list Match → Matches → Match → Match → bool * bool)
    (R : Type)
    (super_when :
       string → list string → EpisodeTitleFromPosition.Hooks → Matches → option R)
    (super_then : Matches → R → result Matches) (ms : Matches) :
  has_episode_title ms →
  EpisodeTitleFromPosition.run super_is_ignored super_should_keep R
    super_when super_then ms = Ok ms.
Proof.
  intros He. apply has_episode_title_spec in He.
  unfold EpisodeTitleFromPosition.run, run_rule, EpisodeTitleFromPosition.when.
  by rewrite He.
Qed.

Lemma with_title_ne ms h : with_title ms h ≠ ms.
Proof.
  intros Heq. apply (f_equal (λ m, length (items m))) in Heq.
  simpl in Heq. rewrite length_app in Heq. simpl in Heq. lia.
Qed.

End Idempotence.

(** C7 (as the code has it).  [TitleToEpisodeTitle] and
    [AlternativeTitleReplace] are idempotent on every collection;
    [EpisodeTitleFromPosition] changes nothing once a span named
    [episodeTitle] exists, whatever the base class does.  The two path rules
    have no guard: another run changes nothing exactly when the rule finds
    no hole to append in the collection it is given. *)
Theorem rules_idempotence (seps title_seps : list ascii)
    (cleanup : string → string) :
  idempotent TitleToEpisodeTitle.run ∧
  idempotent (AlternativeTitleReplace.run seps) ∧
  (∀ super_is_ignored super_should_keep R super_when super_then ms,
     has_episode_title ms →
     EpisodeTitleFromPosition.run super_is_ignored super_should_keep R
       super_when super_then ms = Ok ms) ∧
  (∀ ms, Filepart3EpisodeTitle.run title_seps cleanup ms = Ok ms ↔
         ¬ ∃ h, filepart3_applies title_seps cleanup ms h) ∧
  (∀ ms, Filepart2EpisodeTitle.run title_seps cleanup ms = Ok ms ↔
         ¬ ∃ h, filepart2_applies title_seps cleanup ms h).
Proof.
  split_and!.
  - apply TitleToEpisodeTitle_idempotent.
  - apply AlternativeTitleReplace_idempotent.
  - apply EpisodeTitleFromPosition_guard.
  - intros ms. split; [| apply Filepart3EpisodeTitle_run_otherwise].
    intros Hrun [h Hh].
    rewrite (Filepart3EpisodeTitle_run_applies _ _ _ h Hh) in Hrun.
    injection Hrun as Heq. by apply with_title_ne in Heq.
  - intros ms. split; [| apply Filepart2EpisodeTitle_run_otherwise].
    intros Hrun [h Hh].
    rewrite (Filepart2EpisodeTitle_run_applies _ _ _ h Hh) in Hrun.
    injection Hrun as Heq. by apply with_title_ne in Heq.
Qed.

(** ** All or nothing *)

Section Atomicity.

Lemma AlternativeTitleReplace_when_Some seps ms a :
  AlternativeTitleReplace.when seps ms = Some a →
  a ∈ items ms ∧ name a = Some "alternativeTitle" ∧ ¬ has_episode_title ms.
Proof.
  unfold AlternativeTitleReplace.when. fold (first_alternative ms).
  destruct (nonempty (named "episodeTitle" (items ms))) eqn:He; [done |].
  destruct (first_alternative ms) as [a'|] eqn:Hfirst; [| done].
  apply first_alternative_spec in Hfirst as (Hin & Hn & _).
  destruct (head (chain_before _ _ _ _)); [| done].
  destruct (present _ || nonempty _); [| done].
  intros [= <-]. split_and!; [done | done |].
  rewrite <- has_episode_title_spec. congruence.
Qed.

Lemma AlternativeTitleReplace_run_cases seps ms :
  AlternativeTitleReplace.run seps ms = Ok ms ∨
  ∃ a l1 l2, items ms = l1 ++ (a :: l2) ∧ (a ∉ l1) ∧
    name a = Some "alternativeTitle" ∧ ¬ has_episode_title ms ∧
    AlternativeTitleReplace.run seps ms
    = Ok (with_items ms (l1 ++ l2 ++ [rename "episodeTitle" a])).
Proof.
  unfold AlternativeTitleReplace.run, run_rule.
  destruct (AlternativeTitleReplace.when seps ms) as [a|] eqn:Hwhen; [| by left].
  right. apply AlternativeTitleReplace_when_Some in Hwhen as (Hin & Hn & He).
  apply list_elem_of_split_l in Hin as (l1 & l2 & Heq & Hnot).
  exists a, l1, l2. split_and!; try done.
  unfold AlternativeTitleReplace.then_, retag. rewrite Heq.
  rewrite remove_first by done. simpl. unfold append.
  by rewrite <- app_assoc.
Qed.

End Atomicity.


(** ** How many episode titles *)

Section EpisodeTitleCount.

Lemma count_named_app nm l k :
  count_named nm (l ++ k) = count_named nm l + count_named nm k.
Proof. unfold count_named. by rewrite filter_app, length_app. Qed.

Lemma count_named_Permutation nm l k :
  l ≡ₚ k → count_named nm l = count_named nm k.
Proof. unfold count_named. by intros ->. Qed.

Lemma count_named_zero nm l :
  count_named nm l = 0 ↔ ∀ m, m ∈ l → name m ≠ Some nm.
Proof.
  unfold count_named. rewrite length_zero_iff_nil. split.
  - intros Hnil m Hm Hn.
    assert (m ∈ filter (has_name nm) l) as Hin by by apply list_elem_of_filter.
    rewrite Hnil in Hin. by apply elem_of_nil in Hin.
  - intros Hnone. by apply filter_nil_intro.
Qed.

Lemma count_episode_title_zero ms :
  ¬ has_episode_title ms → count_named "episodeTitle" (items ms) = 0.
Proof.
  intros He. apply count_named_zero. intros m Hm Hn. apply He. by exists m.
Qed.

Lemma count_named_rename nm l :
  count_named nm (rename nm <$> l) = length l.
Proof.
  unfold count_named. induction l as [|x l IH]; [done |].
  rewrite fmap_cons, filter_cons_True by done. simpl. by rewrite IH.
Qed.

Lemma count_named_rename_other nm nm' l :
  nm ≠ nm' → count_named nm (rename nm' <$> l) = 0.
Proof.
  intros Hne. apply count_named_zero. intros m Hm.
  apply list_elem_of_fmap in Hm as (m0 & -> & _). simpl. congruence.
Qed.

(** [TitleToEpisodeTitle] adds one episode title for every title directly
    following an episode number, whether or not one exists already. *)
Lemma TitleToEpisodeTitle_count ms :
  ∃ ms1, TitleToEpisodeTitle.run ms = Ok ms1 ∧
    count_named "episodeTitle" (items ms1)
    = count_named "episodeTitle" (items ms)
      + (if decide (length (named "title" (items ms)) < 2) then 0
         else length (filter (promoted ms) (items ms))).
Proof.
  destruct (run_spec ms) as [[Hrun Hwhen]|(l' & Hrun & Hwhen & Hl')];
    rewrite when_spec in Hwhen.
  - exists ms. split; [done |]. destruct (decide _); [lia |].
    rewrite <- episode_titles_Permutation.
    destruct (episode_titles ms); [simpl; lia | done].
  - exists (with_items ms l'). split; [done |]. simpl.
    destruct (decide _); [done |].
    rewrite (count_named_Permutation _ _ _ Hl'), count_named_app.
    rewrite count_named_rename, episode_titles_Permutation.
    pose proof (count_named_Permutation "episodeTitle" _ _
                  (filter_app_complement (promoted ms) (items ms))) as Hsplit.
    rewrite count_named_app in Hsplit. rewrite <- Hsplit.
    assert (count_named "episodeTitle" (filter (promoted ms) (items ms)) = 0)
      as ->; [| lia].
    apply count_named_zero. intros m Hm Hn.
    apply list_elem_of_filter in Hm as [[Ht _] _]. congruence.
Qed.

Lemma AlternativeTitleReplace_guard seps ms :
  has_episode_title ms → AlternativeTitleReplace.run seps ms = Ok ms.
Proof.
  intros He. apply has_episode_title_spec in He.
  unfold AlternativeTitleReplace.run, run_rule, AlternativeTitleReplace.when.
  by rewrite He.
Qed.

Lemma AlternativeTitleReplace_count seps ms :
  count_named "episodeTitle" (items ms) ≤ 1 →
  ∃ ms', AlternativeTitleReplace.run seps ms = Ok ms' ∧
    count_named "episodeTitle" (items ms') ≤ 1.
Proof.
  intros Hcount. unfold AlternativeTitleReplace.run, run_rule.
  destruct (AlternativeTitleReplace.when seps ms) as [a|] eqn:Hwhen;
    [| by exists ms].
  apply AlternativeTitleReplace_when_Some in Hwhen as (Hin & Hn & He).
  destruct (retag_elem_of "episodeTitle" a (items ms) Hin) as (l' & Hr & Hp).
  unfold AlternativeTitleReplace.then_. rewrite Hr. simpl.
  eexists. split; [done |]. simpl.
  apply count_episode_title_zero in He.
  rewrite (count_named_Permutation _ _ _ Hp) in He.
  change (a :: l') with ([a] ++ l') in He.
  rewrite count_named_app in He. rewrite count_named_app.
  change [rename "episodeTitle" a] with (rename "episodeTitle" <$> [a]).
  rewrite count_named_rename. simpl. lia.
Qed.

Lemma with_title_count ms h :
  count_named "episodeTitle" (items (with_title ms h))
  = count_named "episodeTitle" (items ms).
Proof.
  simpl. rewrite count_named_app.
  change [rename "title" h] with (rename "title" <$> [h]).
  rewrite count_named_rename_other by done. lia.
Qed.

Lemma Filepart3EpisodeTitle_count title_seps cleanup ms :
  ∃ ms', Filepart3EpisodeTitle.run title_seps cleanup ms = Ok ms' ∧
    count_named "episodeTitle" (items ms')
    = count_named "episodeTitle" (items ms).
Proof.
  destruct (Filepart3EpisodeTitle_run_cases title_seps cleanup ms)
    as [Hrun|[h Hrun]]; rewrite Hrun; eexists; split; try done.
  apply with_title_count.
Qed.

Lemma Filepart2EpisodeTitle_count title_seps cleanup ms :
  ∃ ms', Filepart2EpisodeTitle.run title_seps cleanup ms = Ok ms' ∧
    count_named "episodeTitle" (items ms')
    = count_named "episodeTitle" (items ms).
Proof.
  destruct (Filepart2EpisodeTitle_run_cases title_seps cleanup ms)
    as [Hrun|[h Hrun]]; rewrite Hrun; eexists; split; try done.
  apply with_title_count.
Qed.

Lemma has_episode_title_count ms :
  has_episode_title ms ↔ count_named "episodeTitle" (items ms) ≠ 0.
Proof.
  split.
  - intros (e & Hin & Hn) Hz. by apply (proj1 (count_named_zero _ _) Hz e).
  - intros Hnz. destruct (filter (has_name "episodeTitle") (items ms))
      as [|e l] eqn:Hf.
    + unfold count_named in Hnz. by rewrite Hf in Hnz.
    + assert (e ∈ filter (has_name "episodeTitle") (items ms)) as He
        by (rewrite Hf; by left).
      apply list_elem_of_filter in He as [Hn Hin]. by exists e.
Qed.

End EpisodeTitleCount.

(** ** The rules in any order the dependencies allow *)

Section Schedules.
Variable super_is_ignored : Match → bool.
Variable super_should_keep :
  Match → list Match → Matches → Match → Match → bool * bool.
Variable R : Type.
Variable super_when :
  string → list string → EpisodeTitleFromPosition.Hooks → Matches → option R.
Variable super_then : Matches → R → result Matches.
Variable seps title_seps : list ascii.
Variable cleanup : string → string.

Local Abbreviation run_rules' :=
  (run_rules super_is_ignored super_should_keep R super_when super_then
     seps title_seps cleanup).

Lemma NoDup_EPISODE_TITLE : NoDup EPISODE_TITLE.
Proof. by apply (bool_decide_unpack _). Qed.

Lemma execution_order_NoDup order : execution_order order → NoDup order.
Proof. intros [Hperm _]. rewrite Hperm. apply NoDup_EPISODE_TITLE. Qed.

Lemma execution_order_elem_of order r : execution_order order → r ∈ order.
Proof.
  intros [Hperm _]. rewrite Hperm. unfold EPISODE_TITLE.
  destruct r; apply list_elem_of_In; simpl; tauto.
Qed.

(** Once an episode title is there and the path rules have nothing to add,
    no rule changes the collection, in whatever order they run. *)
Lemma run_rules_stable order ms1 :
  has_episode_title ms1 →
  TitleToEpisodeTitle.run ms1 = Ok ms1 →
  Filepart3EpisodeTitle.run title_seps cleanup ms1 = Ok ms1 →
  Filepart2EpisodeTitle.run title_seps cleanup ms1 = Ok ms1 →
  run_rules' order ms1 = Ok ms1.
Proof.
  intros He H1 H3 H2. induction order as [|r order IH]; [done |].
  cbn [run_rules].
  assert (run_class super_is_ignored super_should_keep R super_when
            super_then seps title_seps cleanup r ms1 = Ok ms1) as ->; [| done].
  destruct r; simpl; try done.
  - by apply EpisodeTitleFromPosition_guard.
  - by apply AlternativeTitleReplace_guard.
Qed.

(** A collection the path rules leave alone goes through any execution
    order as it goes through [TitleToEpisodeTitle], when that rule leaves an
    episode title. *)
Lemma run_rules_through_promotion ms0 ms1 order : ∀ ran,
  TitleToEpisodeTitle.run ms0 = Ok ms1 → has_episode_title ms1 →
  Filepart3EpisodeTitle.run title_seps cleanup ms0 = Ok ms0 →
  Filepart2EpisodeTitle.run title_seps cleanup ms0 = Ok ms0 →
  Filepart3EpisodeTitle.run title_seps cleanup ms1 = Ok ms1 →
  Filepart2EpisodeTitle.run title_seps cleanup ms1 = Ok ms1 →
  (TitleToEpisodeTitle_rule ∉ ran) →
  (EpisodeTitleFromPosition_rule ∈ ran → TitleToEpisodeTitle_rule ∈ ran) →
  dependencies_met ran order = true →
  TitleToEpisodeTitle_rule ∈ order →
  run_rules' order ms0 = Ok ms1.
Proof.
  intros ran Hrun He H30 H20 H31 H21.
  assert (TitleToEpisodeTitle.run ms1 = Ok ms1) as H11
    by (by apply (TitleToEpisodeTitle_idempotent ms0)).
  revert ran. induction order as [|r order IH];
    intros ran Hnot Hdep Hmet Hin; [by apply elem_of_nil in Hin |].
  cbn [dependencies_met] in Hmet. apply andb_true_iff in Hmet as [Hd Hmet].
  cbn [run_rules]. destruct r; simpl in Hd |- *.
  - rewrite Hrun. simpl. by apply run_rules_stable.
  - apply bool_decide_eq_true in Hd. done.
  - apply bool_decide_eq_true in Hd. by apply Hdep in Hd.
  - rewrite H30. simpl. apply (IH (Filepart3EpisodeTitle_rule :: ran)).
    + apply not_elem_of_cons. by split.
    + intros Hi. apply elem_of_cons in Hi as [|Hi]; [done |].
      apply elem_of_cons. right. by apply Hdep.
    + done.
    + by apply elem_of_cons in Hin as [|Hin].
  - rewrite H20. simpl. apply (IH (Filepart2EpisodeTitle_rule :: ran)).
    + apply not_elem_of_cons. by split.
    + intros Hi. apply elem_of_cons in Hi as [|Hi]; [done |].
      apply elem_of_cons. right. by apply Hdep.
    + done.
    + by apply elem_of_cons in Hin as [|Hin].
Qed.

Hypothesis Hbase : ∀ ms1 r,
  ¬ has_episode_title ms1 →
  super_when "episodeTitle" ["title"]
    (EpisodeTitleFromPosition.hooks super_is_ignored super_should_keep) ms1
  = Some r →
  ∃ ms2, super_then ms1 r = Ok ms2 ∧
         count_named "episodeTitle" (items ms2) ≤ 1.

Lemma EpisodeTitleFromPosition_count ms :
  count_named "episodeTitle" (items ms) ≤ 1 →
  ∃ ms', EpisodeTitleFromPosition.run super_is_ignored super_should_keep R
           super_when super_then ms = Ok ms' ∧
         count_named "episodeTitle" (items ms') ≤ 1.
Proof.
  intros Hle.
  unfold EpisodeTitleFromPosition.run, run_rule, EpisodeTitleFromPosition.when.
  destruct (nonempty (named "episodeTitle" (items ms))) eqn:He;
    [by exists ms |].
  destruct (super_when _ _ _ ms) as [r|] eqn:Hwhen; [| by exists ms].
  apply (Hbase ms r); [| done].
  rewrite <- has_episode_title_spec. congruence.
Qed.

(** After [TitleToEpisodeTitle] no rule takes the number of episode titles
    beyond one. *)
Lemma run_rules_count_after order : ∀ ms,
  (TitleToEpisodeTitle_rule ∉ order) →
  count_named "episodeTitle" (items ms) ≤ 1 →
  ∃ ms', run_rules' order ms = Ok ms' ∧
         count_named "episodeTitle" (items ms') ≤ 1.
Proof.
  induction order as [|r order IH]; intros ms Hnot Hle; [by exists ms |].
  apply not_elem_of_cons in Hnot as [Hr Hnot]. cbn [run_rules].
  assert (∃ ms1, run_class super_is_ignored super_should_keep R super_when
                   super_then seps title_seps cleanup r ms = Ok ms1 ∧
                 count_named "episodeTitle" (items ms1) ≤ 1)
    as (ms1 & -> & Hle1).
  { destruct r; simpl; [done | | | |].
    - by apply EpisodeTitleFromPosition_count.
    - by apply AlternativeTitleReplace_count.
    - destruct (Filepart3EpisodeTitle_count title_seps cleanup ms)
        as (ms1 & Hrun & Hc). exists ms1. split; [done | lia].
    - destruct (Filepart2EpisodeTitle_count title_seps cleanup ms)
        as (ms1 & Hrun & Hc). exists ms1. split; [done | lia]. }
  simpl. by apply IH.
Qed.

(** Before [TitleToEpisodeTitle] only the path rules can run, and they add
    no episode title; the rule itself adds one for every title that directly
    follows an episode number in the collection it is given. *)
Lemma run_rules_count order : ∀ ran ms,
  (TitleToEpisodeTitle_rule ∉ ran) →
  (EpisodeTitleFromPosition_rule ∈ ran → TitleToEpisodeTitle_rule ∈ ran) →
  dependencies_met ran order = true → NoDup order →
  ¬ has_episode_title ms →
  (∀ before after ms0,
     order = before ++ TitleToEpisodeTitle_rule :: after →
     run_rules' before ms = Ok ms0 →
     length (filter (promoted ms0) (items ms0)) ≤ 1) →
  ∃ ms', run_rules' order ms = Ok ms' ∧
         count_named "episodeTitle" (items ms') ≤ 1.
Proof.
  induction order as [|r order IH]; intros ran ms Hnot Hdep Hmet Hnd He Hone.
  { exists ms. split; [done |]. rewrite count_episode_title_zero by done. lia. }
  cbn [dependencies_met] in Hmet. apply andb_true_iff in Hmet as [Hd Hmet].
  apply NoDup_cons in Hnd as [Hr Hnd]. cbn [run_rules].
  assert (∀ rule,
            rule ≠ TitleToEpisodeTitle_rule →
            rule ≠ EpisodeTitleFromPosition_rule →
            r = rule →
            (∃ ms1, run_class super_is_ignored super_should_keep R super_when
                      super_then seps title_seps cleanup rule ms = Ok ms1 ∧
                    count_named "episodeTitle" (items ms1)
                    = count_named "episodeTitle" (items ms)) →
            ∃ ms', (do m <- run_class super_is_ignored super_should_keep R
                              super_when super_then seps title_seps cleanup
                              rule ms;
                    run_rules' order m) = Ok ms' ∧
                   count_named "episodeTitle" (items ms') ≤ 1) as Hpath.
  { intros rule Hn1 Hn2 -> (ms1 & Hrun & Hc). rewrite Hrun. simpl.
    apply (IH (rule :: ran)); try done.
    - apply not_elem_of_cons. by split.
    - intros Hi. apply elem_of_cons in Hi as [|Hi]; [done |].
      apply elem_of_cons. right. by apply Hdep.
    - rewrite has_episode_title_count, Hc, <- has_episode_title_count. done.
    - intros before after ms0 Heq Hbefore.
      apply (Hone (rule :: before) after ms0); [by rewrite Heq |].
      cbn [run_rules]. by rewrite Hrun. }
  destruct r; simpl in Hd.
  - destruct (TitleToEpisodeTitle_count ms) as (ms1 & Hrun & Hc).
    cbn [run_class]. rewrite Hrun. simpl.
    apply run_rules_count_after; [done |].
    specialize (Hone [] order ms eq_refl eq_refl).
    rewrite (count_episode_title_zero ms He) in Hc.
    destruct (decide _); lia.
  - apply bool_decide_eq_true in Hd. done.
  - apply bool_decide_eq_true in Hd. by apply Hdep in Hd.
  - apply Hpath; try done. apply Filepart3EpisodeTitle_count.
  - apply Hpath; try done. apply Filepart2EpisodeTitle_count.
Qed.

End Schedules.

(** C2 (as the code has it).  [EpisodeTitleFromPosition] and
    [AlternativeTitleReplace] return the collection as it is when a span
    named [episodeTitle] exists.  [TitleToEpisodeTitle] makes no such check:
    with two titles or more it adds one episode title for every title that
    directly follows an episode number.  The two path rules never change the
    number of episode titles.  Hence, in whatever order the dependencies
    allow the five rules to run, a collection that had no episode title ends
    with at most one, provided at most one title directly follows an episode
    number in the collection [TitleToEpisodeTitle] is run on (the input as
    the path rules run before it have left it) and the inherited positional
    rule, run on a collection without episode title, ends with at most
    one. *)
Theorem episode_title_at_most_one
    (super_is_ignored : Match → bool)
    (super_should_keep :
       Match → list Match → Matches → Match → Match → bool * bool)
    (R : Type)
    (super_when :
       string → list string → EpisodeTitleFromPosition.Hooks → Matches → option R)
    (super_then : Matches → R → result Matches)
    (seps title_seps : list ascii) (cleanup : string → string) (ms : Matches) :
  (has_episode_title ms →
     EpisodeTitleFromPosition.run super_is_ignored super_should_keep R
       super_when super_then ms = Ok ms ∧
     AlternativeTitleReplace.run seps ms = Ok ms) ∧
  (∃ ms1, TitleToEpisodeTitle.run ms = Ok ms1 ∧
     count_named "episodeTitle" (items ms1)
     = count_named "episodeTitle" (items ms)
       + (if decide (length (named "title" (items ms)) < 2) then 0
          else length (filter (promoted ms) (items ms)))) ∧
  (∃ ms3 ms2,
     Filepart3EpisodeTitle.run title_seps cleanup ms = Ok ms3 ∧
     Filepart2EpisodeTitle.run title_seps cleanup ms = Ok ms2 ∧
     count_named "episodeTitle" (items ms3)
     = count_named "episodeTitle" (items ms) ∧
     count_named "episodeTitle" (items ms2)
     = count_named "episodeTitle" (items ms)) ∧
  (∀ order, execution_order order →
   ¬ has_episode_title ms →
   (∀ before after ms0,
      order = before ++ TitleToEpisodeTitle_rule :: after →
      run_rules super_is_ignored super_should_keep R super_when super_then
        seps title_seps cleanup before ms = Ok ms0 →
      length (filter (promoted ms0) (items ms0)) ≤ 1) →
   (∀ ms1 r, ¬ has_episode_title ms1 →
      super_when "episodeTitle" ["title"]
        (EpisodeTitleFromPosition.hooks super_is_ignored super_should_keep) ms1
      = Some r →
      ∃ ms2, super_then ms1 r = Ok ms2 ∧
             count_named "episodeTitle" (items ms2) ≤ 1) →
   ∃ ms', run_rules super_is_ignored super_should_keep R super_when
            super_then seps title_seps cleanup order ms = Ok ms' ∧
          count_named "episodeTitle" (items ms') ≤ 1).
Proof.
  split_and!.
  - intros He. split.
    + by apply EpisodeTitleFromPosition_guard.
    + by apply AlternativeTitleReplace_guard.
  - apply TitleToEpisodeTitle_count.
  - destruct (Filepart3EpisodeTitle_count title_seps cleanup ms)
      as (ms3 & H3 & Hc3).
    destruct (Filepart2EpisodeTitle_count title_seps cleanup ms)
      as (ms2 & H2 & Hc2).
    by exists ms3, ms2.
  - intros order Hexec He Hone Hsuper.
    apply (run_rules_count _ _ _ _ _ _ _ _ Hsuper order []); try done.
    + apply not_elem_of_nil.
    + intros Hin. by apply elem_of_nil in Hin.
    + by destruct Hexec.
    + by apply execution_order_NoDup.
Qed.

(** ** EpisodeTitleFromPosition: the ignore and keep policies *)


(** * The properties on the sample collections *)

Ltac split_elem_of H :=
  repeat (apply elem_of_cons in H as [H|H]; [subst |]);
  try (by apply elem_of_nil in H).

Ltac solve_elem_of := apply list_elem_of_In; simpl; tauto.

Lemma promotion_has_promoted :
  promoted Sample.promotion (Sample.span 5 6 "title" "B").
Proof. apply promoted_follows. split; [done | by vm_compute]. Qed.

Lemma three_levels_applies :
  filepart3_applies Sample.title_seps Sample.cleanup Sample.three_levels
    Sample.lost_hole.
Proof.
  exists [], (Sample.path 0 12), (Sample.path 13 16), (Sample.path 17 20).
  split_and!; [by vm_compute | | | by vm_compute].
  - exists (Sample.span 17 20 "episodeNumber" "2").
    split_and!; [solve_elem_of | done | simpl; lia..].
  - exists (Sample.span 13 16 "season" "1").
    split_and!; [solve_elem_of | done | simpl; lia..].
Qed.

Lemma two_levels_applies :
  filepart2_applies Sample.title_seps Sample.cleanup Sample.two_levels
    Sample.lost_hole.
Proof.
  exists [], (Sample.path 0 16), (Sample.path 17 20).
  split_and!; [by vm_compute | | | by vm_compute].
  - exists (Sample.span 17 20 "episodeNumber" "2").
    split_and!; [solve_elem_of | done | simpl; lia..].
  - exists (Sample.span 13 16 "season" "1").
    split_and!; [solve_elem_of | done | simpl; lia..].
Qed.

(** C1 as stated fails: in "A 05 xx B" the text "xx" lies between the
    episode number and the second title, so that no title follows an episode
    number through separators only; the rule retags the second title all the
    same. *)
Lemma TitleToEpisodeTitle_skips_text :
  2 ≤ length (named "title" (items Sample.text_between)) ∧
  (∀ m, m ∈ items Sample.text_between →
        ¬ promoted_through_separators Sample.seps Sample.text_between m) ∧
  TitleToEpisodeTitle.run Sample.text_between
  = Ok {| items := [Sample.span 0 1 "title" "A";
                    Sample.span 2 4 "episodeNumber" "5";
                    Sample.span 8 9 "episodeTitle" "B"];
          markers := [Sample.path 0 9];
          input_string := "A 05 xx B" |}.
Proof.
  split_and!; [vm_compute; lia | | by vm_compute].
  intros m Hin (Hn & p & (Hp & Hle & Hmax) & Hpn & Hseps).
  simpl in Hin, Hp. split_elem_of Hin; try discriminate.
  - split_elem_of Hp; simpl in Hle; lia.
  - split_elem_of Hp; try discriminate.
    specialize (Hseps 5 ltac:(simpl; lia)). by vm_compute in Hseps.
Qed.

(** C1 as amended, at work: "05 B" has one title and is returned as it is;
    in "A 05 B" the title after the episode number is the one retagged. *)
Lemma TitleToEpisodeTitle_contract_witness :
  (length (named "title" (items Sample.single_title)) < 2 ∧
   TitleToEpisodeTitle.run Sample.single_title = Ok Sample.single_title) ∧
  (2 ≤ length (named "title" (items Sample.promotion)) ∧
   (λ m, if decide (promoted Sample.promotion m)
         then {| start := start m; end_ := end_ m;
                 name := Some "episodeTitle";
                 tags := tags m; value := value m |}
         else m) <$> items Sample.promotion
   = [Sample.span 0 1 "title" "A"; Sample.span 2 4 "episodeNumber" "5";
      Sample.span 5 6 "episodeTitle" "B"] ∧
   ∃ ms', TitleToEpisodeTitle.run Sample.promotion = Ok ms' ∧
     markers ms' = markers Sample.promotion ∧
     input_string ms' = input_string Sample.promotion ∧
     items ms' ≡ₚ
       (λ m, if decide (promoted Sample.promotion m)
             then {| start := start m; end_ := end_ m;
                     name := Some "episodeTitle";
                     tags := tags m; value := value m |}
             else m) <$> items Sample.promotion ∧
     ((∀ m, m ∈ items Sample.promotion → ¬ promoted Sample.promotion m) →
      ms' = Sample.promotion)).
Proof.
  assert (length (named "title" (items Sample.single_title)) < 2) as H1
    by (vm_compute; lia).
  assert (2 ≤ length (named "title" (items Sample.promotion))) as H2
    by (vm_compute; lia).
  split; (split; [assumption |]).
  - exact (proj1 (TitleToEpisodeTitle_contract Sample.single_title) H1).
  - split; [by vm_compute |].
    exact (proj2 (TitleToEpisodeTitle_contract Sample.promotion) H2).
Defined.

(** C2 as stated fails: "A 01 B 02 C" holds no episode title, and ends with
    two after the five rules, in whatever order the dependencies allow and
    whatever the inherited rule is. *)
Lemma two_episode_titles_after_ensemble :
  ¬ has_episode_title Sample.two_followers ∧
  ∀ order, execution_order order →
    ∀ super_is_ignored super_should_keep R super_when super_then,
      ∃ ms', run_rules super_is_ignored super_should_keep R super_when
               super_then Sample.seps Sample.title_seps Sample.cleanup
               order Sample.two_followers = Ok ms' ∧
             count_named "episodeTitle" (items ms') = 2.
Proof.
  split.
  - rewrite <- has_episode_title_spec. by vm_compute.
  - intros order Hexec *.
    assert (∃ ms1, TitleToEpisodeTitle.run Sample.two_followers = Ok ms1 ∧
                   nonempty (named "episodeTitle" (items ms1)) = true ∧
                   Filepart3EpisodeTitle.run Sample.title_seps Sample.cleanup
                     ms1 = Ok ms1 ∧
                   Filepart2EpisodeTitle.run Sample.title_seps Sample.cleanup
                     ms1 = Ok ms1 ∧
                   count_named "episodeTitle" (items ms1) = 2)
      as (ms1 & Hrun & He & H31 & H21 & Hcount).
    { eexists. split; [by vm_compute |]. by vm_compute. }
    exists ms1. split; [| done].
    apply (run_rules_through_promotion _ _ _ _ _ _ _ _ _ _ order []);
      try done.
    + by apply has_episode_title_spec.
    + apply not_elem_of_nil.
    + intros Hin. by apply elem_of_nil in Hin.
    + by destruct Hexec.
    + by apply execution_order_elem_of.
Qed.

(** C2 as amended, at work: in "A 05 B" one title follows an episode
    number; run with the path rules first and the stand-in positional rule,
    the five rules end with at most one episode title. *)
Lemma episode_title_at_most_one_witness :
  let order :=
    [Filepart3EpisodeTitle_rule; Filepart2EpisodeTitle_rule;
     TitleToEpisodeTitle_rule; EpisodeTitleFromPosition_rule;
     AlternativeTitleReplace_rule] in
  execution_order order ∧
  ¬ has_episode_title Sample.promotion ∧
  ∃ ms', run_rules (λ _, false) (λ _ _ _ _ _, (false, false)) Match
           Sample.base_when Sample.base_then
           Sample.seps Sample.title_seps Sample.cleanup order Sample.promotion
         = Ok ms' ∧
         count_named "episodeTitle" (items ms') ≤ 1.
Proof.
  intros order.
  assert (execution_order order) as Hexec.
  { split; [by apply (bool_decide_unpack _) | done]. }
  assert (¬ has_episode_title Sample.promotion) as He.
  { rewrite <- has_episode_title_spec. by vm_compute. }
  split; [exact Hexec |]. split; [exact He |].
  refine (proj2 (proj2 (proj2 (episode_title_at_most_one (λ _, false)
            (λ _ _ _ _ _, (false, false)) Match Sample.base_when
            Sample.base_then Sample.seps Sample.title_seps Sample.cleanup
            Sample.promotion))) order Hexec He _ _).
  - intros before after ms0 Heq Hrun.
    assert (before = [Filepart3EpisodeTitle_rule; Filepart2EpisodeTitle_rule])
      as ->.
    { unfold order in Heq.
      do 6 (try (destruct before as [|? before]; simplify_eq/=)); done. }
    vm_compute in Hrun. injection Hrun as <-. vm_compute. lia.
  - intros ms1 r He1 _. unfold Sample.base_then, AppendMatch. eexists.
    split; [reflexivity |]. cbn [items with_items]. unfold append.
    rewrite count_named_app.
    rewrite (count_episode_title_zero ms1 He1).
    change [rename "episodeTitle" r] with (rename "episodeTitle" <$> [r]).
    rewrite count_named_rename. simpl. lia.
Defined.

(** C3 at work: in "S01 Show Alt" the alternative title is chained to a
    main title that follows a season, and is retagged; "A 01 B", which has
    its episode title, is returned as it is, and so is "Show Alt", where
    nothing precedes the main title and there is no [crc32]. *)
Lemma AlternativeTitleReplace_contract_witness :
  let a := Sample.span 9 12 "alternativeTitle" "Alt" in
  let b := Sample.span 5 8 "alternativeTitle" "Alt" in
  (has_episode_title Sample.already_titled ∧
   AlternativeTitleReplace.run Sample.seps Sample.already_titled
   = Ok Sample.already_titled) ∧
  (¬ has_episode_title Sample.alternative ∧
   first_alternative Sample.alternative = Some a ∧
   (∃ mt, chained_main_title Sample.seps Sample.alternative a mt ∧
          episode_context Sample.alternative mt) ∧
   AlternativeTitleReplace.run Sample.seps Sample.alternative
   = Ok {| items := [Sample.span 0 3 "season" "1";
                     {| start := 4; end_ := 8; name := Some "title";
                        tags := ["title"]; value := "Show" |};
                     Sample.span 9 12 "episodeTitle" "Alt"];
           markers := [Sample.path 0 12];
           input_string := "S01 Show Alt" |} ∧
   ∃ ms' l1 l2,
     AlternativeTitleReplace.run Sample.seps Sample.alternative = Ok ms' ∧
     items Sample.alternative = l1 ++ a :: l2 ∧ (a ∉ l1) ∧
     items ms'
     = l1 ++ l2 ++ [{| start := 9; end_ := 12; name := Some "episodeTitle";
                       tags := []; value := "Alt" |}] ∧
     markers ms' = markers Sample.alternative ∧
     input_string ms' = input_string Sample.alternative) ∧
  (¬ has_episode_title Sample.alternative_unanchored ∧
   first_alternative Sample.alternative_unanchored = Some b ∧
   ¬ (∃ mt, chained_main_title Sample.seps Sample.alternative_unanchored b mt ∧
            episode_context Sample.alternative_unanchored mt) ∧
   AlternativeTitleReplace.run Sample.seps Sample.alternative_unanchored
   = Ok Sample.alternative_unanchored).
Proof.
  intros a b.
  assert (has_episode_title Sample.already_titled) as H1.
  { rewrite <- has_episode_title_spec. by vm_compute. }
  assert (¬ has_episode_title Sample.alternative) as H2.
  { rewrite <- has_episode_title_spec. by vm_compute. }
  assert (first_alternative Sample.alternative = Some a) as Hfirst
    by by vm_compute.
  assert (∃ mt, chained_main_title Sample.seps Sample.alternative a mt ∧
                episode_context Sample.alternative mt) as Hfires.
  { exists {| start := 4; end_ := 8; name := Some "title"; tags := ["title"];
              value := "Show" |}. split.
    - apply main_title_spec. by vm_compute.
    - apply episode_context_spec. by vm_compute. }
  assert (¬ has_episode_title Sample.alternative_unanchored) as H3.
  { rewrite <- has_episode_title_spec. by vm_compute. }
  assert (first_alternative Sample.alternative_unanchored = Some b) as Hfirst'
    by by vm_compute.
  assert (¬ (∃ mt, chained_main_title Sample.seps Sample.alternative_unanchored
                     b mt ∧
                   episode_context Sample.alternative_unanchored mt)) as Hnot.
  { intros (mt & Hmain & Hctx). apply main_title_spec in Hmain.
    vm_compute in Hmain. injection Hmain as <-.
    apply episode_context_spec in Hctx. by vm_compute in Hctx. }
  split; [| split]; (split; [assumption |]).
  - exact (proj1 (AlternativeTitleReplace_contract Sample.seps
                    Sample.already_titled) H1).
  - split; [exact Hfirst |]. split; [exact Hfires |].
    split; [by vm_compute |].
    exact (proj1 (proj2 (proj1 (proj2 (AlternativeTitleReplace_contract
                    Sample.seps Sample.alternative) H2) a Hfirst)) Hfires).
  - split; [exact Hfirst' |]. split; [exact Hnot |].
    exact (proj2 (proj2 (proj1 (proj2 (AlternativeTitleReplace_contract
                    Sample.seps Sample.alternative_unanchored) H3) b Hfirst'))
             Hnot).
Defined.

(** C4 as stated fails: in "Show/Ep1 Title" the hole "Ep1" opens the second
    segment; no match precedes it there and there is no [crc32], yet the
    filter accepts it, on the title that ends the first segment. *)
Lemma hole_filter_crosses_segments :
  EpisodeTitleFromPosition.hole_filter Sample.across_segments_hole
    Sample.across_segments = true ∧
  ¬ accepted_within_segment Sample.across_segments Sample.across_segments_hole.
Proof.
  split; [by vm_compute |].
  intros [(p & Hp & (f & Hf & [Hp1 Hp2] & [Hh1 Hh2]) & Hle & _)|(c & Hc & Hn)].
  - apply elem_of_named in Hf as [_ Hf]. simpl in Hf, Hp.
    split_elem_of Hp; split_elem_of Hf; simpl in *; lia.
  - simpl in Hc. split_elem_of Hc; simpl in Hn; discriminate.
Qed.

(** C5 at work: "Lost 2004 US/S01/E02" gets the title "Lost"; the
    two-segment "Lost 2004 US S01/E02" is returned as it is, and so is
    "--/S01/E02", whose first segment holds separators only. *)
Lemma Filepart3EpisodeTitle_contract_witness :
  (filepart3_fires Sample.title_seps Sample.cleanup Sample.three_levels
     Sample.lost_hole ∧
   ∃ ms', Filepart3EpisodeTitle.run Sample.title_seps Sample.cleanup
            Sample.three_levels = Ok ms' ∧
     items ms'
     = items Sample.three_levels
       ++ [{| start := 0; end_ := 5; name := Some "title"; tags := [];
              value := "Lost" |}] ∧
     markers ms' = markers Sample.three_levels ∧
     input_string ms' = input_string Sample.three_levels) ∧
  (length (named "path" (markers Sample.two_levels)) < 3 ∧
   Filepart3EpisodeTitle.run Sample.title_seps Sample.cleanup Sample.two_levels
   = Ok Sample.two_levels) ∧
  ((¬ ∃ h, filepart3_fires Sample.title_seps Sample.cleanup
             Sample.separators_only h) ∧
   Filepart3EpisodeTitle.run Sample.title_seps Sample.cleanup
     Sample.separators_only = Ok Sample.separators_only).
Proof.
  assert (filepart3_fires Sample.title_seps Sample.cleanup
            Sample.three_levels Sample.lost_hole) as Happ.
  { apply filepart3_fires_applies, three_levels_applies. }
  assert (length (named "path" (markers Sample.two_levels)) < 3) as Hlt
    by (vm_compute; lia).
  assert (¬ ∃ h, filepart3_fires Sample.title_seps Sample.cleanup
                   Sample.separators_only h) as Hnone.
  { intros (h & pre & sub & dir & file & Hparts & _ & _ & Hhole).
    change (named "path" (markers Sample.separators_only))
      with ([] ++ [Sample.path 0 2; Sample.path 3 6; Sample.path 7 10])
      in Hparts.
    apply app_three_inj in Hparts as (<- & _ & _).
    apply first_hole_spec in Hhole. by vm_compute in Hhole. }
  destruct (Filepart3EpisodeTitle_contract Sample.title_seps Sample.cleanup
              Sample.three_levels) as (Hyes & _).
  destruct (Filepart3EpisodeTitle_contract Sample.title_seps Sample.cleanup
              Sample.two_levels) as (_ & Hno & _ & Hfew).
  destruct (Filepart3EpisodeTitle_contract Sample.title_seps Sample.cleanup
              Sample.separators_only) as (_ & Hno' & _).
  split; [| split]; (split; [assumption |]).
  - exact (Hyes _ Happ).
  - exact (Hno (Hfew Hlt)).
  - exact (Hno' Hnone).
Defined.

(** C6 at work: "Lost 2004 US S01/E02" gets the title "Lost", found in the
    segment that holds the season; in "Lost 2004 US/S01/E02" the directory
    "S01" is all season, there is no hole in it, and the collection is
    returned as it is. *)
Lemma Filepart2EpisodeTitle_contract_witness :
  (filepart2_fires Sample.title_seps Sample.cleanup Sample.two_levels
     Sample.lost_hole ∧
   ∃ ms', Filepart2EpisodeTitle.run Sample.title_seps Sample.cleanup
            Sample.two_levels = Ok ms' ∧
     items ms'
     = items Sample.two_levels
       ++ [{| start := 0; end_ := 5; name := Some "title"; tags := [];
              value := "Lost" |}] ∧
     markers ms' = markers Sample.two_levels ∧
     input_string ms' = input_string Sample.two_levels) ∧
  ((¬ ∃ h, filepart2_fires Sample.title_seps Sample.cleanup
             Sample.three_levels h) ∧
   Filepart2EpisodeTitle.run Sample.title_seps Sample.cleanup
     Sample.three_levels = Ok Sample.three_levels).
Proof.
  assert (filepart2_fires Sample.title_seps Sample.cleanup
            Sample.two_levels Sample.lost_hole) as Happ.
  { apply filepart2_fires_applies, two_levels_applies. }
  assert (¬ ∃ h, filepart2_fires Sample.title_seps Sample.cleanup
                   Sample.three_levels h) as Hnone.
  { intros (h & pre & dir & file & Hparts & _ & _ & Hhole).
    change (named "path" (markers Sample.three_levels))
      with ([Sample.path 0 12] ++ [Sample.path 13 16; Sample.path 17 20])
      in Hparts.
    apply app_two_inj in Hparts as [<- _].
    apply first_hole_spec in Hhole. by vm_compute in Hhole. }
  split; (split; [assumption |]).
  - exact (proj1 (Filepart2EpisodeTitle_contract Sample.title_seps
                    Sample.cleanup Sample.two_levels) _ Happ).
  - exact (proj1 (proj2 (Filepart2EpisodeTitle_contract Sample.title_seps
                           Sample.cleanup Sample.three_levels)) Hnone).
Defined.

(** C7 as stated fails: on "Lost 2004 US/S01/E02" the first run of
    [Filepart3EpisodeTitle] appends the title "Lost" and the second run
    appends "US". *)
Lemma Filepart3EpisodeTitle_not_idempotent :
  ¬ idempotent (Filepart3EpisodeTitle.run Sample.title_seps Sample.cleanup).
Proof.
  intros Hid.
  specialize (Hid Sample.three_levels
                (with_title Sample.three_levels Sample.lost_hole)).
  assert (Filepart3EpisodeTitle.run Sample.title_seps Sample.cleanup
            (with_title Sample.three_levels Sample.lost_hole)
          = Ok (with_title (with_title Sample.three_levels Sample.lost_hole)
                  {| start := 9; end_ := 12; name := None; tags := [];
                     value := "US" |})) as Hsecond by by vm_compute.
  rewrite Hsecond in Hid. specialize (Hid ltac:(by vm_compute)).
  assert (with_title (with_title Sample.three_levels Sample.lost_hole)
            {| start := 9; end_ := 12; name := None; tags := [];
               value := "US" |}
          = with_title Sample.three_levels Sample.lost_hole) as Heq
    by congruence.
  by apply with_title_ne in Heq.
Qed.

(** C7 as amended, at work: a second run of [TitleToEpisodeTitle] on the
    result for "A 05 B" changes nothing. *)
Lemma rules_idempotence_witness :
  let once :=
    with_items Sample.promotion
      [Sample.span 0 1 "title" "A"; Sample.span 2 4 "episodeNumber" "5";
       Sample.span 5 6 "episodeTitle" "B"] in
  TitleToEpisodeTitle.run Sample.promotion = Ok once ∧
  TitleToEpisodeTitle.run once = Ok once.
Proof.
  intros once.
  assert (TitleToEpisodeTitle.run Sample.promotion = Ok once) as Hrun
    by by vm_compute.
  split; [exact Hrun |].
  exact (proj1 (rules_idempotence Sample.seps Sample.title_seps Sample.cleanup)
           _ _ Hrun).
Defined.




(** * Further properties of the rules *)

(** ** Where TitleToEpisodeTitle puts the spans *)

Section TitleToEpisodeTitleOrder.
Import TitleToEpisodeTitle.

Lemma filter_complement_id {A} (P : A → Prop) `{!∀ x, Decision (P x)}
    (l : list A) :
  filter P l = [] → filter (λ x, ¬ P x) l = l.
Proof.
  induction l as [|x l IH]; [done |].
  destruct (decide (P x)) as [Hx|Hx].
  - by rewrite filter_cons_True.
  - rewrite filter_cons_False by done. intros Hnil.
    rewrite filter_cons_True by done. by rewrite IH.
Qed.

(** [then] takes the listed spans out of the front part of the collection,
    one first copy at a time, and lines their renamed copies up behind. *)
Lemma then_items_exact (P : Match → Prop) `{!∀ x, Decision (P x)} resp :
  ∀ cur app,
    filter P cur ≡ₚ resp →
    then_items (cur ++ app) resp
    = Ok (filter (λ m, ¬ P m) cur ++ app ++ (rename "episodeTitle" <$> resp)).
Proof.
  induction resp as [|t resp IH]; intros cur app Hperm; simpl.
  - apply Permutation_nil_r in Hperm.
    by rewrite (filter_complement_id P cur Hperm), app_nil_r.
  - assert (t ∈ filter P cur) as Ht by (rewrite Hperm; by left).
    apply list_elem_of_filter in Ht as [HPt Ht].
    apply list_elem_of_split_l in Ht as (c1 & c2 & -> & Hnot).
    unfold retag. rewrite <- app_assoc. simpl.
    rewrite remove_first by done. simpl. unfold append.
    replace ((c1 ++ c2 ++ app) ++ [rename "episodeTitle" t])
      with ((c1 ++ c2) ++ (app ++ [rename "episodeTitle" t]))
      by (by rewrite <- !app_assoc).
    rewrite IH.
    + rewrite !filter_app, (filter_cons_False (λ m, ¬ P m)) by tauto.
      by rewrite <- !app_assoc.
    + rewrite filter_app, filter_cons_True in Hperm by done.
      rewrite <- Permutation_middle in Hperm.
      apply Permutation_cons_inv in Hperm. by rewrite filter_app.
Qed.

Lemma episode_titles_sorted ms :
  episode_titles ms = filter (promoted ms) (sorted (items ms)).
Proof.
  unfold episode_titles, named. rewrite list_filter_filter.
  apply list_filter_iff. intros m. rewrite promoted_follows.
  unfold has_name. tauto.
Qed.

Lemma run_exact ms :
  when ms ≠ None →
  run ms = Ok (with_items ms
                 (filter (λ m, ¬ promoted ms m) (items ms)
                  ++ (rename "episodeTitle"
                        <$> filter (promoted ms) (sorted (items ms))))).
Proof.
  intros Hwhen. unfold run, run_rule. rewrite when_spec in Hwhen |- *.
  destruct (decide _); [done |].
  destruct (nonempty (episode_titles ms)); [| done].
  unfold then_.
  pose proof (then_items_exact (promoted ms) (episode_titles ms)
                (items ms) []) as Hexact.
  rewrite app_nil_r in Hexact. rewrite Hexact.
  - simpl. by rewrite episode_titles_sorted.
  - symmetry. apply episode_titles_Permutation.
Qed.

End TitleToEpisodeTitleOrder.

(** X1.  When [TitleToEpisodeTitle] fires (two titles or more, one of them
    directly after an episode number), the collection it returns holds
    first the spans it did not retag, in the order they had, and behind them
    one span named [episodeTitle] for every retagged title, with the
    offsets, tags and value of that title. *)
Theorem TitleToEpisodeTitle_result_order (ms : Matches) :
  2 ≤ length (named "title" (items ms)) →
  (∃ t, t ∈ items ms ∧ promoted ms t) →
  ∃ ms' moved,
    TitleToEpisodeTitle.run ms = Ok ms' ∧
    items ms' = filter (λ m, ¬ promoted ms m) (items ms) ++ moved ∧
    moved ≡ₚ (λ m, {| start := start m; end_ := end_ m;
                      name := Some "episodeTitle";
                      tags := tags m; value := value m |})
               <$> filter (promoted ms) (items ms) ∧
    moved ≠ [].
Proof.
  intros Hlen Hex.
  assert (TitleToEpisodeTitle.when ms ≠ None) as Hwhen
    by (by apply when_Some_iff).
  rewrite (run_exact ms Hwhen). eexists _, _. split; [reflexivity |].
  split; [reflexivity |]. split.
  - by rewrite sorted_Permutation.
  - destruct Hex as (t & Hin & Hp).
    assert (t ∈ filter (promoted ms) (sorted (items ms))) as Ht.
    { apply list_elem_of_filter. split; [done |]. by apply elem_of_sorted. }
    destruct (filter (promoted ms) (sorted (items ms))); [| done].
    by apply elem_of_nil in Ht.
Qed.

(** ** What the rules leave alone *)

Section Preservation.

Lemma TitleToEpisodeTitle_run_cases ms :
  TitleToEpisodeTitle.run ms = Ok ms ∨
  TitleToEpisodeTitle.run ms
  = Ok (with_items ms
          (filter (λ m, ¬ promoted ms m) (items ms)
           ++ (rename "episodeTitle"
                 <$> filter (promoted ms) (sorted (items ms))))).
Proof.
  destruct (TitleToEpisodeTitle.when ms) as [r|] eqn:Hwhen.
  - right. apply run_exact. by rewrite Hwhen.
  - left. unfold TitleToEpisodeTitle.run, run_rule. by rewrite Hwhen.
Qed.


Lemma filter_has_name_not_promoted ms nm (l : list Match) :
  nm ≠ "title" →
  filter (has_name nm) (filter (λ m, ¬ promoted ms m) l)
  = filter (has_name nm) l.
Proof.
  intros Hne. rewrite list_filter_filter. apply list_filter_iff.
  intros m. unfold has_name, promoted. split; [tauto |].
  intros Hn. split; [done |]. intros [Ht _]. congruence.
Qed.

Lemma filter_has_name_rename nm nm' (l : list Match) :
  nm ≠ nm' → filter (has_name nm) (rename nm' <$> l) = [].
Proof.
  intros Hne. apply filter_nil_intro. intros m Hm.
  apply list_elem_of_fmap in Hm as (m0 & -> & _).
  unfold has_name. simpl. congruence.
Qed.

End Preservation.


(** X3.  [TitleToEpisodeTitle] moves names from [title] to [episodeTitle]
    only: the spans of any other name stay what and where they were
    relative to each other, and the titles and episode titles together keep
    their number.  [AlternativeTitleReplace] does the same from
    [alternativeTitle] to [episodeTitle]. *)
Theorem retagging_moves_names_only (seps : list ascii) (ms ms' : Matches)
    (nm : string) :
  (TitleToEpisodeTitle.run ms = Ok ms' →
     (nm ≠ "title" → nm ≠ "episodeTitle" →
        filter (has_name nm) (items ms') = filter (has_name nm) (items ms)) ∧
     count_named "title" (items ms') + count_named "episodeTitle" (items ms')
     = count_named "title" (items ms) + count_named "episodeTitle" (items ms)) ∧
  (AlternativeTitleReplace.run seps ms = Ok ms' →
     (nm ≠ "alternativeTitle" → nm ≠ "episodeTitle" →
        filter (has_name nm) (items ms') = filter (has_name nm) (items ms)) ∧
     count_named "alternativeTitle" (items ms')
     + count_named "episodeTitle" (items ms')
     = count_named "alternativeTitle" (items ms)
       + count_named "episodeTitle" (items ms)).
Proof.
  split; intros Hrun.
  - destruct (TitleToEpisodeTitle_run_cases ms) as [Hc|Hc];
      rewrite Hc in Hrun; injection Hrun as <-; [done |].
    simpl. split.
    + intros Ht He. rewrite filter_app, filter_has_name_not_promoted by done.
      by rewrite filter_has_name_rename, app_nil_r.
    + rewrite !count_named_app, count_named_rename.
      rewrite count_named_rename_other by done.
      pose proof (count_named_Permutation "title" _ _
                    (filter_app_complement (promoted ms) (items ms))) as Ht.
      pose proof (count_named_Permutation "episodeTitle" _ _
                    (filter_app_complement (promoted ms) (items ms))) as He.
      rewrite count_named_app in Ht, He.
      assert (count_named "title" (filter (promoted ms) (items ms))
              = length (filter (promoted ms) (items ms))) as Htp.
      { unfold count_named. f_equal. rewrite list_filter_filter.
        apply list_filter_iff. intros m. unfold has_name, promoted. tauto. }
      assert (count_named "episodeTitle" (filter (promoted ms) (items ms)) = 0)
        as Hep.
      { apply count_named_zero. intros m Hm Hn.
        apply list_elem_of_filter in Hm as [[Hm _] _]. congruence. }
      rewrite sorted_Permutation. lia.
  - destruct (AlternativeTitleReplace_run_cases seps ms)
      as [Hc|(a & l1 & l2 & Heq & _ & Hn & _ & Hc)];
      rewrite Hc in Hrun; injection Hrun as <-; [done |].
    simpl. rewrite Heq. split.
    + intros Ha He. rewrite !filter_app.
      rewrite (filter_cons_False _ a) by (unfold has_name; congruence).
      rewrite (filter_cons_False _ (rename "episodeTitle" a))
        by (unfold has_name; simpl; congruence).
      by rewrite app_nil_r.
    + rewrite !count_named_app.
      change (a :: l2) with ([a] ++ l2).
      change [rename "episodeTitle" a] with (rename "episodeTitle" <$> [a]).
      rewrite !count_named_app, count_named_rename.
      rewrite count_named_rename_other by done.
      assert (count_named "alternativeTitle" [a] = 1) as ->.
      { unfold count_named. by rewrite filter_cons_True. }
      assert (count_named "episodeTitle" [a] = 0) as ->.
      { unfold count_named. rewrite filter_cons_False; [done |].
        unfold has_name. congruence. }
      simpl. lia.
Qed.

(** ** The chain once an episode title is there *)

Section ChainFacts.

Lemma TitleToEpisodeTitle_keeps_episode_title ms :
  has_episode_title ms ∨ TitleToEpisodeTitle.when ms ≠ None →
  ∃ ms1, TitleToEpisodeTitle.run ms = Ok ms1 ∧ has_episode_title ms1.
Proof.
  intros Hor.
  destruct (TitleToEpisodeTitle.when ms) as [r|] eqn:Hwhen.
  - rewrite run_exact by (by rewrite Hwhen). eexists. split; [done |].
    assert (TitleToEpisodeTitle.when ms ≠ None) as Hne by (by rewrite Hwhen).
    apply when_Some_iff in Hne as (_ & t & Hin & Hp).
    exists (rename "episodeTitle" t). split; [| done]. simpl.
    apply elem_of_app. right. apply list_elem_of_fmap_2.
    apply list_elem_of_filter. split; [done |]. by apply elem_of_sorted.
  - destruct Hor as [He|Hne]; [| done]. exists ms. split; [| done].
    unfold TitleToEpisodeTitle.run, run_rule. by rewrite Hwhen.
Qed.

End ChainFacts.

(** X5.  Once an episode title is there, given with the input or made by
    [TitleToEpisodeTitle], the two later rules of the dependency chain
    change nothing, whatever the inherited positional rule would do: the
    chain returns what [TitleToEpisodeTitle] returns. *)
Theorem chain_stops_at_episode_title
    (super_is_ignored : Match → bool)
    (super_should_keep :
       Match → list Match → Matches → Match → Match → bool * bool)
    (R : Type)
    (super_when :
       string → list string → EpisodeTitleFromPosition.Hooks → Matches → option R)
    (super_then : Matches → R → result Matches)
    (seps : list ascii) (ms : Matches) :
  has_episode_title ms ∨ TitleToEpisodeTitle.when ms ≠ None →
  dependency_chain super_is_ignored super_should_keep R super_when
    super_then seps ms
  = TitleToEpisodeTitle.run ms.
Proof.
  intros Hor. unfold dependency_chain.
  destruct (TitleToEpisodeTitle_keeps_episode_title ms Hor) as (ms1 & -> & He).
  simpl. rewrite EpisodeTitleFromPosition_guard by done. simpl.
  by apply AlternativeTitleReplace_guard.
Qed.

(** ** When AlternativeTitleReplace cannot fire *)

Section AlternativeTitleReplaceNoop.

Lemma AlternativeTitleReplace_needs_main_title seps ms :
  (∀ a mt, first_alternative ms = Some a → ¬ chained_main_title seps ms a mt) →
  AlternativeTitleReplace.run seps ms = Ok ms.
Proof.
  intros Hnone.
  unfold AlternativeTitleReplace.run, run_rule, AlternativeTitleReplace.when.
  fold (first_alternative ms).
  destruct (nonempty (named "episodeTitle" (items ms))); [done |].
  destruct (first_alternative ms) as [a|] eqn:Hfirst; [| done].
  destruct (head (chain_before ms (start a) seps _)) as [mt|] eqn:Hmain;
    [| done].
  apply main_title_spec in Hmain. by destruct (Hnone a mt eq_refl).
Qed.

Lemma chained_main_title_tagged seps ms a mt :
  chained_main_title seps ms a mt →
  ∃ i, i < start a ∧ mt ∈ items ms ∧ "title" ∈ tags mt ∧
       start mt ≤ i < end_ mt ∧
       ∀ j, i < j < start a → is_sep seps (input_string ms) j = true.
Proof.
  intros (i & Hi & Hhead & Hbetween). exists i.
  apply head_Some_elem_of in Hhead.
  apply list_elem_of_filter in Hhead as [Htag Hin].
  apply list_elem_of_filter in Hin as [Hcov Hin].
  repeat (split; [done |]). intros j Hj. by destruct (Hbetween j Hj).
Qed.

End AlternativeTitleReplaceNoop.

(** X6.  The main title of [AlternativeTitleReplace] is found by the tag
    [title], not by the name, and only through separators: the rule changes
    nothing when no span carries the tag [title], when the first alternative
    title starts the string, or when the character before it is neither a
    separator nor covered by a span carrying the tag. *)
Theorem AlternativeTitleReplace_needs_tagged_neighbour (seps : list ascii)
    (ms : Matches) :
  ((∀ m, m ∈ items ms → "title" ∉ tags m) →
     AlternativeTitleReplace.run seps ms = Ok ms) ∧
  (∀ a, first_alternative ms = Some a →
     start a = 0 ∨
     (is_sep seps (input_string ms) (start a - 1) = false ∧
      ∀ m, m ∈ items ms → start m ≤ start a - 1 < end_ m → "title" ∉ tags m) →
     AlternativeTitleReplace.run seps ms = Ok ms).
Proof.
  split.
  - intros Hnotag. apply AlternativeTitleReplace_needs_main_title.
    intros a mt _ Hmain.
    apply chained_main_title_tagged in Hmain as (i & _ & Hin & Htag & _).
    by apply (Hnotag mt).
  - intros a Hfirst Hor. apply AlternativeTitleReplace_needs_main_title.
    intros a' mt Hfirst' Hmain. assert (a' = a) as -> by congruence.
    apply chained_main_title_tagged in Hmain
      as (i & Hi & Hin & Htag & Hcov & Hseps).
    destruct Hor as [Hzero|[Hsep Hnone]]; [lia |].
    destruct (decide (i = start a - 1)) as [->|Hne].
    + by apply (Hnone mt).
    + rewrite Hseps in Hsep by lia. done.
Qed.

(** ** The two path rules side by side *)

Section FilepartIndependence.
Variable title_seps : list ascii.
Variable cleanup : string → string.

Lemma covered_snoc l m i :
  covered (l ++ [m]) i = covered l i || bool_decide (start m ≤ i < end_ m).
Proof.
  unfold covered, at_index. rewrite filter_app.
  destruct (decide (start m ≤ i < end_ m)) as [Hc|Hc].
  - rewrite (filter_cons_True _ m) by done.
    rewrite (bool_decide_eq_true_2 (start m ≤ i < end_ m)) by done.
    rewrite orb_true_r. apply bool_decide_eq_true_2.
    by destruct (filter _ l).
  - rewrite (filter_cons_False _ m) by done.
    rewrite (bool_decide_eq_false_2 (start m ≤ i < end_ m)) by done.
    by rewrite orb_false_r, filter_nil, app_nil_r.
Qed.

(** The gaps of a range depend on what covers the offsets of the range. *)
Lemma gaps_ext l l' n : ∀ pos open,
  (∀ i, pos ≤ i < pos + n → covered l i = covered l' i) →
  gaps l pos n open = gaps l' pos n open.
Proof.
  induction n as [|n IH]; intros pos open Hsame; simpl; [done |].
  rewrite <- (Hsame pos) by lia.
  rewrite !(IH (S pos)) by (intros i Hi; apply Hsame; lia). done.
Qed.

Lemma holes_with_title ms h lo hi (P : Match → Prop) `{!∀ m, Decision (P m)} :
  (∀ i, lo ≤ i < hi → ¬ (start h ≤ i < end_ h)) →
  holes (with_title ms h) lo hi cleanup title_seps P
  = holes ms lo hi cleanup title_seps P.
Proof.
  intros Hfree. unfold holes. simpl.
  rewrite (gaps_ext (items ms ++ [rename "title" h]) (items ms)); [done |].
  intros i Hi. rewrite covered_snoc. simpl.
  rewrite bool_decide_eq_false_2; [apply orb_false_r |].
  apply Hfree. lia.
Qed.

Lemma contains_named_with_title ms h seg nm :
  nm ≠ "title" →
  contains_named (with_title ms h) seg nm ↔ contains_named ms seg nm.
Proof.
  intros Hne. unfold contains_named. simpl.
  split; intros (m & Hin & Hn & Hrest); exists m; (split; [| done]).
  - apply elem_of_app in Hin as [Hin|Hin]; [done |].
    apply list_elem_of_singleton in Hin as ->. simpl in Hn. congruence.
  - apply elem_of_app. by left.
Qed.

Lemma present_range_with_title ms h seg nm :
  nm ≠ "title" →
  present (head (range (items ms ++ [rename "title" h]) (start seg)
                   (Some (end_ seg)) (has_name nm)))
  = present (head (range (items ms) (start seg) (Some (end_ seg))
                     (has_name nm))).
Proof.
  intros Hne.
  pose proof (contains_named_spec (with_title ms h) seg nm) as H1.
  simpl in H1.
  pose proof (contains_named_spec ms seg nm) as H2.
  pose proof (contains_named_with_title ms h seg nm Hne) as H3.
  destruct (present _), (present _); try done; exfalso.
  - assert (false = true) by tauto. done.
  - assert (false = true) by tauto. done.
Qed.

Lemma Filepart3EpisodeTitle_when_with_title ms h :
  (∀ pre sub dir file,
     named "path" (markers ms) = pre ++ [sub; dir; file] → untouched sub h) →
  Filepart3EpisodeTitle.when title_seps cleanup (with_title ms h)
  = Filepart3EpisodeTitle.when title_seps cleanup ms.
Proof.
  intros Hfree. unfold Filepart3EpisodeTitle.when.
  change (markers (with_title ms h)) with (markers ms).
  destruct (decide _) as [Hlt|Hge]; [done |].
  destruct (last_three _ Hge) as (pre & sub & dir & file & Hparts).
  rewrite Hparts, from_end_1', from_end_2', from_end_3. simpl bind.
  rewrite !present_range_with_title by done.
  rewrite holes_with_title; [done |].
  apply (Hfree pre sub dir file Hparts).
Qed.

Lemma Filepart2EpisodeTitle_when_with_title ms h :
  (∀ pre dir file,
     named "path" (markers ms) = pre ++ [dir; file] → untouched dir h) →
  Filepart2EpisodeTitle.when title_seps cleanup (with_title ms h)
  = Filepart2EpisodeTitle.when title_seps cleanup ms.
Proof.
  intros Hfree. unfold Filepart2EpisodeTitle.when.
  change (markers (with_title ms h)) with (markers ms).
  destruct (decide _) as [Hlt|Hge]; [done |].
  destruct (last_two _ Hge) as (pre & dir & file & Hparts).
  rewrite Hparts, from_end_1, from_end_2. simpl bind.
  rewrite !present_range_with_title by done.
  rewrite holes_with_title; [done |].
  apply (Hfree pre dir file Hparts).
Qed.

(** What [when] returns is a first hole of the segment the rule scans. *)
Lemma Filepart3EpisodeTitle_when_Some ms h :
  Filepart3EpisodeTitle.when title_seps cleanup ms = Ok (Some h) →
  ∃ pre sub dir file,
    named "path" (markers ms) = pre ++ [sub; dir; file] ∧
    first_hole title_seps cleanup ms sub = Some h.
Proof.
  unfold Filepart3EpisodeTitle.when.
  destruct (decide _) as [Hlt|Hge]; [done |].
  destruct (last_three _ Hge) as (pre & sub & dir & file & Hparts).
  rewrite Hparts, from_end_1', from_end_2', from_end_3. simpl.
  destruct (present _); [| done]. destruct (present _); [| done].
  intros [= Hhead]. by exists pre, sub, dir, file.
Qed.

Lemma Filepart2EpisodeTitle_when_Some ms h :
  Filepart2EpisodeTitle.when title_seps cleanup ms = Ok (Some h) →
  ∃ pre dir file,
    named "path" (markers ms) = pre ++ [dir; file] ∧
    first_hole title_seps cleanup ms dir = Some h.
Proof.
  unfold Filepart2EpisodeTitle.when.
  destruct (decide _) as [Hlt|Hge]; [done |].
  destruct (last_two _ Hge) as (pre & dir & file & Hparts).
  rewrite Hparts, from_end_1, from_end_2. simpl.
  destruct (present _); [| done]. destruct (present _); [| done].
  intros [= Hhead]. by exists pre, dir, file.
Qed.

Lemma hole_within_untouched ms seg seg' h :
  hole_within cleanup ms seg h →
  end_ seg ≤ start seg' ∨ end_ seg' ≤ start seg →
  untouched seg' h.
Proof.
  intros (Hlo & Hne & Hhi & _) Hapart i Hi Hcov. lia.
Qed.

End FilepartIndependence.

(** X9.  When the segments the two path rules take their holes from do not
    overlap, the rules do not interfere: run in either order they end with
    the same spans, the same markers and the same input string; only the
    order of the two appended titles differs. *)
Theorem path_rules_commute (title_seps : list ascii)
    (cleanup : string → string) (ms : Matches) :
  scanned_segments_apart ms →
  ∃ a b,
    (do m <- Filepart3EpisodeTitle.run title_seps cleanup ms;
     Filepart2EpisodeTitle.run title_seps cleanup m) = Ok a ∧
    (do m <- Filepart2EpisodeTitle.run title_seps cleanup ms;
     Filepart3EpisodeTitle.run title_seps cleanup m) = Ok b ∧
    items a ≡ₚ items b ∧ markers a = markers b ∧
    input_string a = input_string b.
Proof.
  intros Hapart.
  assert (∀ h3, Filepart3EpisodeTitle.when title_seps cleanup ms = Ok (Some h3) →
            Filepart2EpisodeTitle.when title_seps cleanup (with_title ms h3)
            = Filepart2EpisodeTitle.when title_seps cleanup ms) as H23.
  { intros h3 Hw. apply Filepart2EpisodeTitle_when_with_title.
    intros pre dir file Hparts.
    apply Filepart3EpisodeTitle_when_Some in Hw
      as (pre3 & sub & dir' & file' & Hparts3 & Hhole).
    apply first_hole_within in Hhole.
    assert (dir = dir') as <-.
    { rewrite Hparts in Hparts3.
      change (pre3 ++ [sub; dir'; file']) with (pre3 ++ [sub] ++ [dir'; file'])
        in Hparts3.
      rewrite app_assoc in Hparts3. by apply app_two_inj in Hparts3 as [? _]. }
    eapply hole_within_untouched; [exact Hhole |].
    apply (Hapart pre3 sub dir file' Hparts3). }
  assert (∀ h2, Filepart2EpisodeTitle.when title_seps cleanup ms = Ok (Some h2) →
            Filepart3EpisodeTitle.when title_seps cleanup (with_title ms h2)
            = Filepart3EpisodeTitle.when title_seps cleanup ms) as H32.
  { intros h2 Hw. apply Filepart3EpisodeTitle_when_with_title.
    intros pre sub dir file Hparts.
    apply Filepart2EpisodeTitle_when_Some in Hw
      as (pre2 & dir' & file' & Hparts2 & Hhole).
    apply first_hole_within in Hhole.
    assert (dir' = dir) as ->.
    { rewrite Hparts in Hparts2.
      change (pre ++ [sub; dir; file]) with (pre ++ [sub] ++ [dir; file])
        in Hparts2.
      rewrite app_assoc in Hparts2. by apply app_two_inj in Hparts2 as [? _]. }
    eapply hole_within_untouched; [exact Hhole |].
    destruct (Hapart pre sub dir file Hparts); [by right | by left]. }
  assert (∀ m o, Filepart3EpisodeTitle.when title_seps cleanup m = Ok o →
            Filepart3EpisodeTitle.run title_seps cleanup m
            = Ok (from_option (with_title m) m o)) as Hrun3.
  { intros m o Hw. unfold Filepart3EpisodeTitle.run. rewrite Hw.
    by destruct o. }
  assert (∀ m o, Filepart2EpisodeTitle.when title_seps cleanup m = Ok o →
            Filepart2EpisodeTitle.run title_seps cleanup m
            = Ok (from_option (with_title m) m o)) as Hrun2.
  { intros m o Hw. unfold Filepart2EpisodeTitle.run. rewrite Hw.
    by destruct o. }
  destruct (Filepart3EpisodeTitle.when title_seps cleanup ms)
    as [o3|e3] eqn:H3; last first.
  { pose proof (Filepart3EpisodeTitle_run_cases title_seps cleanup ms) as Hc.
    unfold Filepart3EpisodeTitle.run in Hc. rewrite H3 in Hc.
    by destruct Hc as [?|[? ?]]. }
  destruct (Filepart2EpisodeTitle.when title_seps cleanup ms)
    as [o2|e2] eqn:H2; last first.
  { pose proof (Filepart2EpisodeTitle_run_cases title_seps cleanup ms) as Hc.
    unfold Filepart2EpisodeTitle.run in Hc. rewrite H2 in Hc.
    by destruct Hc as [?|[? ?]]. }
  rewrite (Hrun3 ms o3 H3), (Hrun2 ms o2 H2).
  unfold bind. cbv beta iota.
  destruct o3 as [h3|], o2 as [h2|]; cbn [from_option].
  - rewrite (Hrun2 (with_title ms h3) (Some h2) (H23 h3 eq_refl)).
    rewrite (Hrun3 (with_title ms h2) (Some h3) (H32 h2 eq_refl)).
    eexists _, _. split_and!; try done. simpl. rewrite <- !app_assoc.
    apply Permutation_app_head, Permutation_swap.
  - rewrite (Hrun2 (with_title ms h3) None (H23 h3 eq_refl)).
    rewrite (Hrun3 ms (Some h3) H3).
    by eexists _, _.
  - rewrite (Hrun2 ms (Some h2) H2).
    rewrite (Hrun3 (with_title ms h2) None (H32 h2 eq_refl)).
    by eexists _, _.
  - rewrite (Hrun2 ms None H2), (Hrun3 ms None H3).
    by eexists _, _.
Qed.

(** ** Rules that wait for an episode number *)

(** X10.  Without a span named [episodeNumber], [TitleToEpisodeTitle] and
    the two path rules return the collection as it is, whatever else it
    holds; without a span named [season], so do the two path rules. *)
Theorem rules_need_episode_number (title_seps : list ascii)
    (cleanup : string → string) (ms : Matches) :
  ((∀ m, m ∈ items ms → name m ≠ Some "episodeNumber") →
     TitleToEpisodeTitle.run ms = Ok ms ∧
     Filepart3EpisodeTitle.run title_seps cleanup ms = Ok ms ∧
     Filepart2EpisodeTitle.run title_seps cleanup ms = Ok ms) ∧
  ((∀ m, m ∈ items ms → name m ≠ Some "season") →
     Filepart3EpisodeTitle.run title_seps cleanup ms = Ok ms ∧
     Filepart2EpisodeTitle.run title_seps cleanup ms = Ok ms).
Proof.
  split; intros Hnone; split_and!.
  - destruct (TitleToEpisodeTitle.when ms) as [r|] eqn:Hwhen.
    + assert (TitleToEpisodeTitle.when ms ≠ None) as Hne by (by rewrite Hwhen).
      apply when_Some_iff in Hne as (_ & t & _ & _ & p & (Hp & _) & Hn).
      by destruct (Hnone p Hp).
    + unfold TitleToEpisodeTitle.run, run_rule. by rewrite Hwhen.
  - apply Filepart3EpisodeTitle_run_otherwise.
    intros (h & _ & _ & _ & file & _ & (m & Hm & Hn & _) & _).
    by destruct (Hnone m Hm).
  - apply Filepart2EpisodeTitle_run_otherwise.
    intros (h & _ & _ & file & _ & (m & Hm & Hn & _) & _).
    by destruct (Hnone m Hm).
  - apply Filepart3EpisodeTitle_run_otherwise.
    intros (h & _ & _ & dir & _ & _ & _ & (m & Hm & Hn & _) & _).
    by destruct (Hnone m Hm).
  - apply Filepart2EpisodeTitle_run_otherwise.
    intros (h & _ & dir & _ & _ & _ & (m & Hm & Hn & _) & _).
    by destruct (Hnone m Hm).
Qed.

(** X11.  The two path rules test the same file name and the same
    directory: whenever [Filepart3EpisodeTitle] adds a span to a collection,
    [Filepart2EpisodeTitle], run on that same collection, finds the episode
    number and the season it asks for, so that what it does is settled by
    its hole query on the range of the directory alone: it returns the
    collection as it is when the query finds nothing, and the collection
    with the hole found, named [title], at the end otherwise. *)
Theorem path_rules_share_tests (title_seps : list ascii)
    (cleanup : string → string) (ms ms3 : Matches)
    (pre : list Match) (subdirectory directory filename : Match) :
  named "path" (markers ms) = pre ++ [subdirectory; directory; filename] →
  Filepart3EpisodeTitle.run title_seps cleanup ms = Ok ms3 →
  items ms3 ≠ items ms →
  ∃ ms2, Filepart2EpisodeTitle.run title_seps cleanup ms = Ok ms2 ∧
    markers ms2 = markers ms ∧ input_string ms2 = input_string ms ∧
    items ms2
    = items ms
      ++ match head (holes ms (start directory) (end_ directory) cleanup
                       title_seps has_value) with
         | Some h => [{| start := start h; end_ := end_ h;
                         name := Some "title";
                         tags := tags h; value := value h |}]
         | None => []
         end.
Proof.
  intros Hparts Hrun Hne.
  apply Filepart3EpisodeTitle_run_inv in Hrun as [->|(h3 & Hh3 & _)]; [done |].
  destruct Hh3 as (pre3 & sub & dir & file & Hparts3 & Hep & Hse & _).
  assert (sub = subdirectory ∧ dir = directory ∧ file = filename)
    as (-> & -> & ->).
  { rewrite Hparts in Hparts3. symmetry in Hparts3.
    by apply app_three_inj in Hparts3. }
  assert (named "path" (markers ms)
          = (pre ++ [subdirectory]) ++ [directory; filename]) as Hparts2.
  { by rewrite Hparts, <- app_assoc. }
  destruct (head (holes ms (start directory) (end_ directory) cleanup
                    title_seps has_value)) as [h2|] eqn:Hhole.
  - assert (filepart2_applies title_seps cleanup ms h2) as Happ.
    { by exists (pre ++ [subdirectory]), directory, filename. }
    rewrite (Filepart2EpisodeTitle_run_applies _ _ _ _ Happ).
    by eexists.
  - rewrite Filepart2EpisodeTitle_run_otherwise.
    + exists ms. by rewrite app_nil_r.
    + intros (h & pre2 & dir2 & file2 & Hparts2' & _ & _ & Hhole').
      assert (dir2 = directory) as ->.
      { rewrite Hparts2 in Hparts2'. symmetry in Hparts2'.
        by apply app_two_inj in Hparts2' as [? _]. }
      unfold first_hole in Hhole'. congruence.
Qed.

(** ** The guards in any order *)

Section Guards.
Variable super_is_ignored : Match → bool.
Variable super_should_keep :
  Match → list Match → Matches → Match → Match → bool * bool.
Variable R : Type.
Variable super_when :
  string → list string → EpisodeTitleFromPosition.Hooks → Matches → option R.
Variable super_then : Matches → R → result Matches.
Variable seps title_seps : list ascii.
Variable cleanup : string → string.

(** No rule takes the last episode title away. *)
Lemma run_class_keeps_episode_title r ms :
  has_episode_title ms →
  ∃ ms', run_class super_is_ignored super_should_keep R super_when super_then
           seps title_seps cleanup r ms = Ok ms' ∧
         has_episode_title ms' ∧
         (r = EpisodeTitleFromPosition_rule ∨ r = AlternativeTitleReplace_rule →
          ms' = ms).
Proof.
  intros He.
  assert (∀ h, has_episode_title (with_title ms h)) as Htitle.
  { intros h. destruct He as (e & Hin & Hn). exists e. split; [| done].
    cbn [items with_title with_items]. apply elem_of_app. by left. }
  destruct r; simpl.
  - destruct (TitleToEpisodeTitle_keeps_episode_title ms (or_introl He))
      as (ms1 & Hrun & He1).
    exists ms1. split_and!; [done | done |]. by intros [|].
  - exists ms. by rewrite EpisodeTitleFromPosition_guard.
  - exists ms. by rewrite AlternativeTitleReplace_guard.
  - destruct (Filepart3EpisodeTitle_run_cases title_seps cleanup ms)
      as [Hc|[h Hc]]; rewrite Hc; eexists; (split; [done |]);
      (split; [done || apply Htitle | by intros [|]]).
  - destruct (Filepart2EpisodeTitle_run_cases title_seps cleanup ms)
      as [Hc|[h Hc]]; rewrite Hc; eexists; (split; [done |]);
      (split; [done || apply Htitle | by intros [|]]).
Qed.

End Guards.

(** X12.  Once a collection holds an episode title,
    [EpisodeTitleFromPosition] and [AlternativeTitleReplace] change nothing
    wherever they come among the rules: whatever the order and whatever the
    inherited positional rule, the rules return what [TitleToEpisodeTitle]
    and the two path rules alone return, run in the same order; and the
    collection returned still holds an episode title. *)
Theorem guards_hold_in_every_order
    (super_is_ignored : Match → bool)
    (super_should_keep :
       Match → list Match → Matches → Match → Match → bool * bool)
    (R : Type)
    (super_when :
       string → list string → EpisodeTitleFromPosition.Hooks → Matches → option R)
    (super_then : Matches → R → result Matches)
    (seps title_seps : list ascii) (cleanup : string → string)
    (order : list RuleClass) (ms : Matches) :
  has_episode_title ms →
  ∃ ms',
    run_rules super_is_ignored super_should_keep R super_when super_then
      seps title_seps cleanup order ms = Ok ms' ∧
    run_rules super_is_ignored super_should_keep R super_when super_then
      seps title_seps cleanup
      (filter (λ r, r ≠ EpisodeTitleFromPosition_rule ∧
                    r ≠ AlternativeTitleReplace_rule) order) ms = Ok ms' ∧
    has_episode_title ms'.
Proof.
  revert ms. induction order as [|r order IH]; intros ms He.
  { by exists ms. }
  destruct (run_class_keeps_episode_title super_is_ignored super_should_keep
              R super_when super_then seps title_seps cleanup r ms He)
    as (ms1 & Hrun & He1 & Hsame).
  destruct (IH ms1 He1) as (ms' & Hall & Hfew & He').
  exists ms'. split_and!; [| | done].
  - cbn [run_rules]. by rewrite Hrun.
  - destruct (decide (r ≠ EpisodeTitleFromPosition_rule ∧
                      r ≠ AlternativeTitleReplace_rule)) as [Hr|Hr].
    + rewrite filter_cons_True by done. cbn [run_rules]. by rewrite Hrun.
    + rewrite filter_cons_False by done.
      rewrite <- (Hsame ltac:(destruct r; naive_solver)). done.
Qed.

(** * The further properties on the sample collections *)

(** X1 at work on "A 05 B". *)
Lemma TitleToEpisodeTitle_result_order_witness :
  2 ≤ length (named "title" (items Sample.promotion)) ∧
  (∃ t, t ∈ items Sample.promotion ∧ promoted Sample.promotion t) ∧
  ∃ ms' moved,
    TitleToEpisodeTitle.run Sample.promotion = Ok ms' ∧
    items ms'
    = filter (λ m, ¬ promoted Sample.promotion m) (items Sample.promotion)
      ++ moved ∧
    moved ≡ₚ (λ m, {| start := start m; end_ := end_ m;
                      name := Some "episodeTitle";
                      tags := tags m; value := value m |})
               <$> filter (promoted Sample.promotion)
                     (items Sample.promotion) ∧
    moved ≠ [].
Proof.
  assert (2 ≤ length (named "title" (items Sample.promotion))) as Hlen
    by (vm_compute; lia).
  assert (∃ t, t ∈ items Sample.promotion ∧ promoted Sample.promotion t) as Hex.
  { exists (Sample.span 5 6 "title" "B").
    split; [solve_elem_of | apply promotion_has_promoted]. }
  split; [exact Hlen |]. split; [exact Hex |].
  exact (TitleToEpisodeTitle_result_order Sample.promotion Hlen Hex).
Defined.


(** X3 at work on "S01 Show Alt". *)
Lemma retagging_moves_names_only_witness :
  AlternativeTitleReplace.run Sample.seps Sample.alternative
  = Ok Sample.alternative_done ∧
  ("season" ≠ "alternativeTitle" → "season" ≠ "episodeTitle" →
     filter (has_name "season") (items Sample.alternative_done)
     = filter (has_name "season") (items Sample.alternative)) ∧
  count_named "alternativeTitle" (items Sample.alternative_done)
  + count_named "episodeTitle" (items Sample.alternative_done)
  = count_named "alternativeTitle" (items Sample.alternative)
    + count_named "episodeTitle" (items Sample.alternative).
Proof.
  assert (AlternativeTitleReplace.run Sample.seps Sample.alternative
          = Ok Sample.alternative_done) as Hrun by by vm_compute.
  split; [exact Hrun |].
  exact (proj2 (retagging_moves_names_only Sample.seps Sample.alternative
                  Sample.alternative_done "season") Hrun).
Defined.

(** X5 at work on "A 01 B", which has its episode title. *)
Lemma chain_stops_at_episode_title_witness :
  has_episode_title Sample.already_titled ∧
  dependency_chain (λ _, false) (λ _ _ _ _ _, (false, false)) Match
    Sample.base_when Sample.base_then Sample.seps Sample.already_titled
  = TitleToEpisodeTitle.run Sample.already_titled.
Proof.
  assert (has_episode_title Sample.already_titled) as He.
  { rewrite <- has_episode_title_spec. by vm_compute. }
  split; [exact He |].
  exact (chain_stops_at_episode_title _ _ _ _ _ _ _ (or_introl He)).
Defined.

(** X6 at work: in "S01 Show Alt" with an untagged main title nothing is
    retagged. *)
Lemma AlternativeTitleReplace_needs_tagged_neighbour_witness :
  (∀ m, m ∈ items Sample.alternative_untagged → "title" ∉ tags m) ∧
  AlternativeTitleReplace.run Sample.seps Sample.alternative_untagged
  = Ok Sample.alternative_untagged.
Proof.
  assert (∀ m, m ∈ items Sample.alternative_untagged → "title" ∉ tags m)
    as Hnotag.
  { intros m Hin. simpl in Hin. split_elem_of Hin; apply not_elem_of_nil. }
  split; [exact Hnotag |].
  exact (proj1 (AlternativeTitleReplace_needs_tagged_neighbour Sample.seps
                  Sample.alternative_untagged) Hnotag).
Defined.

(** X9 at work on "Lost 2004 US/S01/E02", whose segments are apart. *)
Lemma path_rules_commute_witness :
  scanned_segments_apart Sample.three_levels ∧
  ∃ a b,
    (do m <- Filepart3EpisodeTitle.run Sample.title_seps Sample.cleanup
               Sample.three_levels;
     Filepart2EpisodeTitle.run Sample.title_seps Sample.cleanup m) = Ok a ∧
    (do m <- Filepart2EpisodeTitle.run Sample.title_seps Sample.cleanup
               Sample.three_levels;
     Filepart3EpisodeTitle.run Sample.title_seps Sample.cleanup m) = Ok b ∧
    items a ≡ₚ items b ∧ markers a = markers b ∧
    input_string a = input_string b.
Proof.
  assert (scanned_segments_apart Sample.three_levels) as Hapart.
  { intros pre sub dir file Hparts.
    change (named "path" (markers Sample.three_levels))
      with ([] ++ [Sample.path 0 12; Sample.path 13 16; Sample.path 17 20])
      in Hparts.
    apply app_three_inj in Hparts as (<- & <- & _). simpl. lia. }
  split; [exact Hapart |].
  exact (path_rules_commute Sample.title_seps Sample.cleanup
           Sample.three_levels Hapart).
Defined.

(** X10 at work.  "Lost 2004 US/S01/Pilot" has two titles, three path
    segments, a season in the directory and a hole to offer, and no episode
    number: the three rules return it as it is.  "Lost 2004 US/Bonus/E02"
    has its episode number in the file name and no season: the two path
    rules return it as it is. *)
Lemma rules_need_episode_number_witness :
  (2 ≤ length (named "title" (items Sample.no_episode_number)) ∧
   3 ≤ length (named "path" (markers Sample.no_episode_number)) ∧
   contains_named Sample.no_episode_number (Sample.path 13 16) "season" ∧
   first_hole Sample.title_seps Sample.cleanup Sample.no_episode_number
     (Sample.path 0 12)
   = Some {| start := 9; end_ := 12; name := None; tags := [];
             value := "US" |} ∧
   (∀ m, m ∈ items Sample.no_episode_number → name m ≠ Some "episodeNumber") ∧
   TitleToEpisodeTitle.run Sample.no_episode_number
   = Ok Sample.no_episode_number ∧
   Filepart3EpisodeTitle.run Sample.title_seps Sample.cleanup
     Sample.no_episode_number = Ok Sample.no_episode_number ∧
   Filepart2EpisodeTitle.run Sample.title_seps Sample.cleanup
     Sample.no_episode_number = Ok Sample.no_episode_number) ∧
  (3 ≤ length (named "path" (markers Sample.no_season)) ∧
   contains_named Sample.no_season (Sample.path 19 22) "episodeNumber" ∧
   (∀ m, m ∈ items Sample.no_season → name m ≠ Some "season") ∧
   Filepart3EpisodeTitle.run Sample.title_seps Sample.cleanup Sample.no_season
   = Ok Sample.no_season ∧
   Filepart2EpisodeTitle.run Sample.title_seps Sample.cleanup Sample.no_season
   = Ok Sample.no_season).
Proof.
  assert (∀ m, m ∈ items Sample.no_episode_number →
               name m ≠ Some "episodeNumber") as Hnone.
  { intros m Hin. simpl in Hin. split_elem_of Hin; discriminate. }
  assert (∀ m, m ∈ items Sample.no_season → name m ≠ Some "season") as Hnone'.
  { intros m Hin. simpl in Hin. split_elem_of Hin; discriminate. }
  split.
  - split; [vm_compute; lia |]. split; [vm_compute; lia |]. split.
    { exists (Sample.span 13 16 "season" "1").
      split_and!; [solve_elem_of | done | simpl; lia..]. }
    split; [by vm_compute |]. split; [exact Hnone |].
    exact (proj1 (rules_need_episode_number Sample.title_seps Sample.cleanup
                    Sample.no_episode_number) Hnone).
  - split; [vm_compute; lia |]. split.
    { exists (Sample.span 19 22 "episodeNumber" "2").
      split_and!; [solve_elem_of | done | simpl; lia..]. }
    split; [exact Hnone' |].
    exact (proj2 (rules_need_episode_number Sample.title_seps Sample.cleanup
                    Sample.no_season) Hnone').
Defined.

(** X11 at work on "Lost 2004 US/S01/E02": [Filepart3EpisodeTitle] adds the
    title "Lost"; the hole query on the season directory "S01" finds
    nothing, and [Filepart2EpisodeTitle] returns the spans it was given. *)
Lemma path_rules_share_tests_witness :
  let ms3 :=
    {| items := items Sample.three_levels
                ++ [{| start := 0; end_ := 5; name := Some "title";
                       tags := []; value := "Lost" |}];
       markers := markers Sample.three_levels;
       input_string := input_string Sample.three_levels |} in
  named "path" (markers Sample.three_levels)
  = [] ++ [Sample.path 0 12; Sample.path 13 16; Sample.path 17 20] ∧
  Filepart3EpisodeTitle.run Sample.title_seps Sample.cleanup
    Sample.three_levels = Ok ms3 ∧
  items ms3 ≠ items Sample.three_levels ∧
  ∃ ms2, Filepart2EpisodeTitle.run Sample.title_seps Sample.cleanup
           Sample.three_levels = Ok ms2 ∧
    markers ms2 = markers Sample.three_levels ∧
    input_string ms2 = input_string Sample.three_levels ∧
    items ms2 = items Sample.three_levels ++ [].
Proof.
  intros ms3.
  assert (named "path" (markers Sample.three_levels)
          = [] ++ [Sample.path 0 12; Sample.path 13 16; Sample.path 17 20])
    as Hparts by by vm_compute.
  assert (Filepart3EpisodeTitle.run Sample.title_seps Sample.cleanup
            Sample.three_levels = Ok ms3) as Hrun by by vm_compute.
  assert (items ms3 ≠ items Sample.three_levels) as Hne by done.
  split; [exact Hparts |]. split; [exact Hrun |]. split; [exact Hne |].
  exact (path_rules_share_tests Sample.title_seps Sample.cleanup
           Sample.three_levels ms3 [] _ _ _ Hparts Hrun Hne).
Defined.

(** X12 at work on "A 01 B", which has its episode title, with the rules in
    the order of their registration and the stand-in positional rule. *)
Lemma guards_hold_in_every_order_witness :
  has_episode_title Sample.already_titled ∧
  ∃ ms',
    run_rules (λ _, false) (λ _ _ _ _ _, (false, false)) Match
      Sample.base_when Sample.base_then Sample.seps Sample.title_seps
      Sample.cleanup EPISODE_TITLE Sample.already_titled = Ok ms' ∧
    run_rules (λ _, false) (λ _ _ _ _ _, (false, false)) Match
      Sample.base_when Sample.base_then Sample.seps Sample.title_seps
      Sample.cleanup
      [TitleToEpisodeTitle_rule; Filepart3EpisodeTitle_rule;
       Filepart2EpisodeTitle_rule] Sample.already_titled = Ok ms' ∧
    has_episode_title ms'.
Proof.
  assert (has_episode_title Sample.already_titled) as He.
  { rewrite <- has_episode_title_spec. by vm_compute. }
  split; [exact He |].
  exact (guards_hold_in_every_order (λ _, false) (λ _ _ _ _ _, (false, false))
           Match Sample.base_when Sample.base_then Sample.seps
           Sample.title_seps Sample.cleanup EPISODE_TITLE
           Sample.already_titled He).
Defined.
